(** * Pocket Notes: the entity store and its persistence, verified

    A shallow embedding of [src/App.js].  The React component keeps two
    collections ([groups], [notes]) in component state, mirrors them into
    [localStorage] under the keys "pocketGroups" and "pocketNotes", and
    derives the notes of the selected group on every render.

    JavaScript strings are sequences of UTF-16 code units; they are modelled
    as lists of code units ([N]).  The built-ins the component calls
    ([trim], [split], [charAt], [JSON.stringify], [JSON.parse],
    [Number.prototype.toString]) are modelled next to the code that uses
    them; the case conversions [toUpperCase] and [toLowerCase] and the two
    [Intl] renderings are those of the engine, whichever they are. *)

From Stdlib Require Import NArith List String Ascii Lia DecimalN DecimalFacts.
From stdpp Require Import base decidable option list gmap.

Local Open Scope N_scope.

(** ** JavaScript strings *)

Abbreviation jsstring := (list N).

(** A literal of the source, as code units (the literals of [App.js] that
    matter here are ASCII). *)
Fixpoint str (s : string) : jsstring :=
  match s with
  | EmptyString => []
  | String a r => N_of_ascii a :: str r
  end.

(** [WhiteSpace] and [LineTerminator] of ECMAScript: what [trim] strips and
    what [\s] matches. *)
Definition is_ws (c : N) : bool :=
  (c =? 9) || (c =? 10) || (c =? 11) || (c =? 12) || (c =? 13) || (c =? 32)
  || (c =? 160) || (c =? 5760) || ((8192 <=? c) && (c <=? 8202))
  || (c =? 8232) || (c =? 8233) || (c =? 8239) || (c =? 8287)
  || (c =? 12288) || (c =? 65279).

Fixpoint trimStart (s : jsstring) : jsstring :=
  match s with
  | [] => []
  | c :: r => if is_ws c then trimStart r else s
  end.

Definition trimEnd (s : jsstring) : jsstring := rev (trimStart (rev s)).

(** [String.prototype.trim] *)
Definition trim (s : jsstring) : jsstring := trimEnd (trimStart s).

(** [s.split(/\s+/)]: the separators are the maximal runs of white space.
    [in_sep] says that the previous code unit belonged to a separator, [cur]
    is the field being read.  A separator at the very start or end of [s]
    leaves an empty field there, and the empty string splits into one empty
    field, as in JavaScript. *)
Fixpoint split_go (in_sep : bool) (cur : jsstring) (s : jsstring)
  : list jsstring :=
  match s with
  | [] => [cur]
  | c :: r =>
      if is_ws c then
        if in_sep then split_go true [] r else cur :: split_go true [] r
      else split_go false (cur ++ [c]) r
  end.

Definition split_ws (s : jsstring) : list jsstring := split_go false [] s.

(** [s.charAt(0)] *)
Definition charAt0 (s : jsstring) : jsstring :=
  match s with
  | [] => []
  | c :: _ => [c]
  end.

(** *** Case mapping

    [String.prototype.toUpperCase] and [String.prototype.toLowerCase] apply
    the case conversion of the engine: the Unicode tables with their
    special-casing and context rules, which are no part of [App.js].  They
    are taken as given: two functions on strings that do on ASCII strings
    what every engine does there.  The code of the component is verified for
    all such functions, so for the engine's own. *)
Definition ascii_only (s : jsstring) : Prop := Forall (fun c => c < 128) s.

(** Upper and lower case of an ASCII code unit. *)
Definition ascii_up (c : N) : N := if (97 <=? c) && (c <=? 122) then c - 32 else c.

Definition ascii_down (c : N) : N := if (65 <=? c) && (c <=? 90) then c + 32 else c.

Class CaseMapping : Type :=
  { toLowerCase : jsstring -> jsstring;
    toUpperCase : jsstring -> jsstring;
    toUpperCase_Basic_Latin :
      forall s, ascii_only s -> toUpperCase s = map ascii_up s;
    toLowerCase_Basic_Latin :
      forall s, ascii_only s -> toLowerCase s = map ascii_down s }.

(** One such pair, for the closed examples: the mappings of Basic Latin and
    Latin-1 Supplement (U+0000..U+00FF), which need no context.  The table
    has the three code units whose upper case leaves that block: U+00B5
    (micro sign), U+00DF (sharp s, which becomes the two units "SS") and
    U+00FF.  It is the engine's mapping on strings of these code units only,
    and the closed examples use it on no other. *)
Definition upper_unit (c : N) : jsstring :=
  if (97 <=? c) && (c <=? 122) then [c - 32]
  else if c =? 181 then [924]
  else if c =? 223 then [83; 83]
  else if (224 <=? c) && (c <=? 254) && negb (c =? 247) then [c - 32]
  else if c =? 255 then [376]
  else [c].

Definition lower_unit (c : N) : jsstring :=
  if (65 <=? c) && (c <=? 90) then [c + 32]
  else if (192 <=? c) && (c <=? 222) && negb (c =? 215) then [c + 32]
  else [c].

Ltac case_tests :=
  repeat match goal with
    | |- context [N.eqb ?a ?b] => destruct (N.eqb_spec a b); try lia
    | |- context [N.leb ?a ?b] => destruct (N.leb_spec a b); try lia
    | |- context [N.ltb ?a ?b] => destruct (N.ltb_spec a b); try lia
    end;
  try reflexivity.

Definition Latin1 : CaseMapping.
Proof.
  refine {| toLowerCase := fun s => concat (map lower_unit s);
            toUpperCase := fun s => concat (map upper_unit s) |}.
  - induction 1 as [|c r Hc _ IH]; simpl; [reflexivity|]. rewrite IH.
    f_equal. unfold upper_unit, ascii_up.
    destruct (N.leb_spec 97 c), (N.leb_spec c 122); simpl; case_tests.
  - induction 1 as [|c r Hc _ IH]; simpl; [reflexivity|]. rewrite IH.
    f_equal. unfold lower_unit, ascii_down.
    destruct (N.leb_spec 65 c), (N.leb_spec c 90); simpl; case_tests.
Defined.

(** *** Numbers to strings

    [Date.now().toString()]: the decimal digits of a non-negative integer
    (epoch milliseconds stay far below 1e21, where JavaScript would switch to
    exponent notation). *)
Fixpoint digits (d : Decimal.uint) : jsstring :=
  match d with
  | Decimal.Nil => []
  | Decimal.D0 r => 48 :: digits r
  | Decimal.D1 r => 49 :: digits r
  | Decimal.D2 r => 50 :: digits r
  | Decimal.D3 r => 51 :: digits r
  | Decimal.D4 r => 52 :: digits r
  | Decimal.D5 r => 53 :: digits r
  | Decimal.D6 r => 54 :: digits r
  | Decimal.D7 r => 55 :: digits r
  | Decimal.D8 r => 56 :: digits r
  | Decimal.D9 r => 57 :: digits r
  end.

Definition toString (n : N) : jsstring := digits (N.to_uint n).

(** [Date.now().toString()], the identifier of a new record (lines 101 and
    118); [now] is the clock reading. *)
Definition newId (now : N) : jsstring := toString now.

(** ** The helper functions of [App.js] *)

(** Lines 4-5. *)
Definition GROUP_COLORS : list jsstring :=
  [str "#B38BFA"; str "#FF79F2"; str "#43E6FC"; str "#F19576"; str "#0047FF";
   str "#6691FF"].

(** [GROUP_COLORS[0]] *)
Definition GROUP_COLORS_0 : jsstring := List.hd [] GROUP_COLORS.

(** Lines 9-14.  [!name] holds for the empty string only. *)
Definition getInitials {cm : CaseMapping} (name : jsstring) : jsstring :=
  match name with
  | [] => []
  | _ =>
      let words := split_ws (trim name) in
      match words with
      | [w] => toUpperCase (charAt0 w)
      | w0 :: w1 :: _ => toUpperCase (charAt0 w0 ++ charAt0 w1)
      | [] => [] (* split never returns an empty array *)
      end
  end.

(** ** Data model

    The object literals built at lines 100-105 and 117-123.  [groupId] is the
    selection cursor at the time of creation, which is [null] ([None]) while
    no group is selected. *)
Module Group.
Record t : Type := mk
  { id : jsstring; name : jsstring; color : jsstring; initials : jsstring }.
End Group.

Module Note.
Record t : Type := mk
  { id : jsstring; groupId : option jsstring; content : jsstring;
    date : jsstring; time : jsstring }.
End Note.

#[global] Instance Group_eq_dec : EqDecision Group.t.
Proof. solve_decision. Defined.

#[global] Instance Note_eq_dec : EqDecision Note.t.
Proof. solve_decision. Defined.

(** The [useState] cells of the component (lines 32-51) that the store and
    its views read; [isMobile] only drives the layout. *)
Record AppState : Type := mkApp
  { groups : list Group.t;
    notes : list Note.t;
    selectedGroupId : option jsstring;
    isModalOpen : bool;
    groupName : jsstring;
    selectedColor : jsstring;
    noteText : jsstring }.

(** What a handler does: the calls it makes, in program order.  A state
    setter only schedules the new value; the handler itself keeps reading the
    values of the render it was created in. *)
Inductive Call : Type :=
  | alert (msg : jsstring)
  | setGroups (gs : list Group.t)
  | setNotes (ns : list Note.t)
  | setSelectedGroupId (sel : option jsstring)
  | setIsModalOpen (b : bool)
  | setGroupName (s : jsstring)
  | setSelectedColor (c : jsstring)
  | setNoteText (s : jsstring).

(** [!s] for a string [s] *)
Definition falsy (s : jsstring) : bool :=
  match s with [] => true | _ => false end.

(** Lines 95: [groups.some(g => g.name.toLowerCase() === groupName.trim().toLowerCase())] *)
Definition nameTaken {cm : CaseMapping} (gs : list Group.t) (groupName : jsstring) : bool :=
  existsb
    (fun g => bool_decide (toLowerCase (Group.name g) = toLowerCase (trim groupName)))
    gs.

(** Lines 91-111.  [now] is the value [Date.now()] returns. *)
Definition handleCreateGroup {cm : CaseMapping} (now : N) (s : AppState) : list Call :=
  if falsy (trim (groupName s)) then []
  else if nameTaken (groups s) (groupName s) then
    [alert (str "Group name already exists!")]
  else
    let newGroup :=
      {| Group.id := newId now;
         Group.name := trim (groupName s);
         Group.color := selectedColor s;
         Group.initials := getInitials (groupName s) |} in
    [setGroups (groups s ++ [newGroup]);
     setIsModalOpen false;
     setGroupName [];
     setSelectedColor GROUP_COLORS_0].

Section Locale.

(** The two [Intl] renderings used by [formatDate] and [formatTime]: they
    depend on the host's time zone and locale data, and are taken as given. *)
Context (toLocaleDateString_en_GB : N -> jsstring).
Context (toLocaleTimeString_en_US : N -> jsstring).

(** Lines 16-20. *)
Definition formatDate (dateObj : N) : jsstring :=
  toLocaleDateString_en_GB dateObj.

(** Lines 22-26. *)
Definition formatTime (dateObj : N) : jsstring :=
  toLocaleTimeString_en_US dateObj.

(** Lines 113-127.  [dateObj] is the instant captured by [new Date()], [now]
    the value of the later [Date.now()]. *)
Definition handleAddNote (dateObj now : N) (s : AppState) : list Call :=
  if falsy (trim (noteText s)) then []
  else
    let newNote :=
      {| Note.id := newId now;
         Note.groupId := selectedGroupId s;
         Note.content := noteText s;
         Note.date := formatDate dateObj;
         Note.time := formatTime dateObj |} in
    [setNotes (notes s ++ [newNote]); setNoteText []].

End Locale.

(** Lines 136-137, the view projection. *)
Definition currentGroup (s : AppState) : option Group.t :=
  List.find (fun g => bool_decide (Some (Group.id g) = selectedGroupId s)) (groups s).

Definition currentNotes (s : AppState) : list Note.t :=
  filter (fun n => Note.groupId n = selectedGroupId s) (notes s).

(** ** JSON

    The values [JSON.parse] can return.  A number is kept as its literal (no
    field of this program's records is a number, so its conversion to a
    double is never needed); an object is its list of properties in creation
    order. *)
#[local] Unset Elimination Schemes.
Inductive json : Type :=
  | JNull
  | JBool (b : bool)
  | JNum (lit : jsstring)
  | JStr (s : jsstring)
  | JArr (vs : list json)
  | JObj (ms : list (jsstring * json)).
#[local] Set Elimination Schemes.

(** *** [JSON.stringify] *)

Definition hexdigit (d : N) : N := if d <? 10 then 48 + d else 87 + d.

(** [\uXXXX] with lower-case digits, as [UnicodeEscape] writes it *)
Definition unicodeEscape (c : N) : jsstring :=
  [92; 117; hexdigit (c / 4096 mod 16); hexdigit (c / 256 mod 16);
   hexdigit (c / 16 mod 16); hexdigit (c mod 16)].

Definition is_high (c : N) : bool := (55296 <=? c) && (c <=? 56319).
Definition is_low (c : N) : bool := (56320 <=? c) && (c <=? 57343).

(** One code unit that is not the first half of a surrogate pair. *)
Definition quote_unit (c : N) : jsstring :=
  if c =? 8 then [92; 98]
  else if c =? 9 then [92; 116]
  else if c =? 10 then [92; 110]
  else if c =? 12 then [92; 102]
  else if c =? 13 then [92; 114]
  else if c =? 34 then [92; 34]
  else if c =? 92 then [92; 92]
  else if (c <? 32) || is_high c || is_low c then unicodeEscape c
  else [c].

(** [QuoteJSONString] without the enclosing quotes: a well-formed surrogate
    pair is copied, a lone surrogate is escaped. *)
Fixpoint quote_body (s : jsstring) : jsstring :=
  match s with
  | [] => []
  | c :: r =>
      if is_high c then
        match r with
        | d :: r' =>
            if is_low d then c :: d :: quote_body r'
            else unicodeEscape c ++ quote_body r
        | [] => unicodeEscape c
        end
      else quote_unit c ++ quote_body r
  end.

Definition quote (s : jsstring) : jsstring := [34] ++ quote_body s ++ [34].

Fixpoint commas (parts : list jsstring) : jsstring :=
  match parts with
  | [] => []
  | [p] => p
  | p :: ps => p ++ [44] ++ commas ps
  end.

Fixpoint JSON_stringify (v : json) : jsstring :=
  match v with
  | JNull => str "null"
  | JBool true => str "true"
  | JBool false => str "false"
  | JNum lit => lit
  | JStr s => quote s
  | JArr vs => [91] ++ commas (map JSON_stringify vs) ++ [93]
  | JObj ms =>
      [123]
      ++ commas (map (fun m => quote (fst m) ++ [58] ++ JSON_stringify (snd m)) ms)
      ++ [125]
  end.

(** *** [JSON.parse] *)

Definition is_json_ws (c : N) : bool :=
  (c =? 32) || (c =? 9) || (c =? 10) || (c =? 13).

Fixpoint skip_ws (s : jsstring) : jsstring :=
  match s with
  | [] => []
  | c :: r => if is_json_ws c then skip_ws r else s
  end.

Definition hexval (c : N) : option N :=
  if (48 <=? c) && (c <=? 57) then Some (c - 48)
  else if (97 <=? c) && (c <=? 102) then Some (c - 87)
  else if (65 <=? c) && (c <=? 70) then Some (c - 55)
  else None.

Definition hex4 (a b c d : N) : option N :=
  match hexval a, hexval b, hexval c, hexval d with
  | Some x, Some y, Some z, Some w => Some (x * 4096 + y * 256 + z * 16 + w)
  | _, _, _, _ => None
  end.

Definition unescape (e : N) : option N :=
  if e =? 34 then Some 34
  else if e =? 92 then Some 92
  else if e =? 47 then Some 47
  else if e =? 98 then Some 8
  else if e =? 102 then Some 12
  else if e =? 110 then Some 10
  else if e =? 114 then Some 13
  else if e =? 116 then Some 9
  else None.

(** The characters of a string literal after its opening quote, up to and
    including the closing quote: the string denoted and the rest of the
    input. *)
Fixpoint parse_chars (s : jsstring) : option (jsstring * jsstring) :=
  match s with
  | [] => None
  | c :: r =>
      if c =? 34 then Some ([], r)
      else if c =? 92 then
        match r with
        | [] => None
        | e :: r1 =>
            if e =? 117 then
              match r1 with
              | h1 :: h2 :: h3 :: h4 :: r2 =>
                  match hex4 h1 h2 h3 h4 with
                  | Some u =>
                      match parse_chars r2 with
                      | Some (x, r3) => Some (u :: x, r3)
                      | None => None
                      end
                  | None => None
                  end
              | _ => None
              end
            else
              match unescape e with
              | Some u =>
                  match parse_chars r1 with
                  | Some (x, r3) => Some (u :: x, r3)
                  | None => None
                  end
              | None => None
              end
        end
      else if c <? 32 then None
      else
        match parse_chars r with
        | Some (x, r3) => Some (c :: x, r3)
        | None => None
        end
  end.

Definition is_digit (c : N) : bool := (48 <=? c) && (c <=? 57).

Fixpoint take_digits (s : jsstring) : jsstring * jsstring :=
  match s with
  | [] => ([], [])
  | c :: r =>
      if is_digit c then let '(ds, r') := take_digits r in (c :: ds, r')
      else ([], s)
  end.

(** A number literal: an optional minus sign, an integer part (a single 0, or
    a non-zero digit followed by digits), an optional fraction (a dot and at
    least one digit) and an optional exponent (e or E, an optional sign and
    at least one digit). *)
Definition parse_int (s : jsstring) : option (jsstring * jsstring) :=
  match s with
  | [] => None
  | c :: r =>
      if c =? 48 then Some ([c], r)
      else if is_digit c then let '(ds, r') := take_digits r in Some (c :: ds, r')
      else None
  end.

Definition parse_frac (s : jsstring) : option (jsstring * jsstring) :=
  match s with
  | 46 :: r =>
      match take_digits r with
      | ([], _) => None
      | (ds, r') => Some (46 :: ds, r')
      end
  | _ => Some ([], s)
  end.

Definition parse_exp (s : jsstring) : option (jsstring * jsstring) :=
  match s with
  | [] => Some ([], s)
  | e :: r =>
      if (e =? 101) || (e =? 69) then
        let '(sign, r1) :=
          match r with
          | c :: r0 => if (c =? 43) || (c =? 45) then ([c], r0) else ([], r)
          | [] => ([], r)
          end in
        match take_digits r1 with
        | ([], _) => None
        | (ds, r') => Some (e :: sign ++ ds, r')
        end
      else Some ([], s)
  end.

Definition parse_number (s : jsstring) : option (jsstring * jsstring) :=
  let '(sign, s1) :=
    match s with
    | 45 :: r => ([45], r)
    | _ => ([], s)
    end in
  match parse_int s1 with
  | None => None
  | Some (i, s2) =>
      match parse_frac s2 with
      | None => None
      | Some (f, s3) =>
          match parse_exp s3 with
          | None => None
          | Some (e, s4) => Some (sign ++ i ++ f ++ e, s4)
          end
      end
  end.

Fixpoint strip_prefix (p s : jsstring) : option jsstring :=
  match p, s with
  | [], _ => Some s
  | a :: p', b :: s' => if a =? b then strip_prefix p' s' else None
  | _ :: _, [] => None
  end.

(** An array index: the canonical decimal text of an integer below
    [2^32 - 1]. *)
Definition array_index (k : jsstring) : option N :=
  match k with
  | [] => None
  | c :: r =>
      if forallb (fun d => (48 <=? d) && (d <=? 57)) k
         && (negb (c =? 48) || falsy r)
      then
        let n := fold_left (fun a d => 10 * a + (d - 48)) k 0 in
        if n <? 4294967295 then Some n else None
      else None
  end.

(** [CreateDataProperty] on a freshly parsed object, with the order in which
    the properties of an object are listed: array indices first, ascending,
    then the other keys in the order of their creation.  A repeated key
    keeps its place and takes the later value. *)
Fixpoint obj_replace (ms : list (jsstring * json)) (k : jsstring) (v : json)
  : list (jsstring * json) :=
  match ms with
  | [] => []
  | (k', v') :: ms' =>
      if bool_decide (k' = k) then (k', v) :: ms' else (k', v') :: obj_replace ms' k v
  end.

Fixpoint obj_add (ms : list (jsstring * json)) (k : jsstring) (v : json)
  : list (jsstring * json) :=
  match ms with
  | [] => [(k, v)]
  | (k', v') :: ms' =>
      match array_index k, array_index k' with
      | Some i, Some j => if i <? j then (k, v) :: ms else (k', v') :: obj_add ms' k v
      | Some _, None => (k, v) :: ms
      | None, _ => (k', v') :: obj_add ms' k v
      end
  end.

Definition obj_set (ms : list (jsstring * json)) (k : jsstring) (v : json)
  : list (jsstring * json) :=
  if existsb (fun m => bool_decide (fst m = k)) ms then obj_replace ms k v
  else obj_add ms k v.

(** The recursive descent.  [fuel] bounds the depth of the recursion; every
    recursive call is on a strictly shorter input, so [S (length s)] is
    always enough (lemma [JSON_parse_fuel] below).  [parse_value] expects no leading white
    space; [parse_tail] reads what follows an array element, [parse_members]
    the properties of an object from the opening quote of a key on. *)
Fixpoint parse_value (fuel : nat) (s : jsstring) : option (json * jsstring) :=
  match fuel with
  | O => None
  | S fuel =>
      match s with
      | [] => None
      | c :: r =>
          if c =? 34 then
            match parse_chars r with
            | Some (x, r') => Some (JStr x, r')
            | None => None
            end
          else if c =? 91 then
            match skip_ws r with
            | [] => None
            | c1 :: r1 =>
                if c1 =? 93 then Some (JArr [], r1)
                else
                  match parse_value fuel (c1 :: r1) with
                  | Some (v, r2) =>
                      match parse_tail fuel r2 with
                      | Some (vs, r3) => Some (JArr (v :: vs), r3)
                      | None => None
                      end
                  | None => None
                  end
            end
          else if c =? 123 then
            match skip_ws r with
            | [] => None
            | c1 :: r1 =>
                if c1 =? 125 then Some (JObj [], r1)
                else
                  match parse_members fuel [] (c1 :: r1) with
                  | Some (ms, r2) => Some (JObj ms, r2)
                  | None => None
                  end
            end
          else if c =? 110 then
            match strip_prefix (str "ull") r with
            | Some r' => Some (JNull, r')
            | None => None
            end
          else if c =? 116 then
            match strip_prefix (str "rue") r with
            | Some r' => Some (JBool true, r')
            | None => None
            end
          else if c =? 102 then
            match strip_prefix (str "alse") r with
            | Some r' => Some (JBool false, r')
            | None => None
            end
          else
            match parse_number s with
            | Some (lit, r') => Some (JNum lit, r')
            | None => None
            end
      end
  end
with parse_tail (fuel : nat) (s : jsstring) : option (list json * jsstring) :=
  match fuel with
  | O => None
  | S fuel =>
      match skip_ws s with
      | [] => None
      | c :: r =>
          if c =? 93 then Some ([], r)
          else if c =? 44 then
            match parse_value fuel (skip_ws r) with
            | Some (v, r2) =>
                match parse_tail fuel r2 with
                | Some (vs, r3) => Some (v :: vs, r3)
                | None => None
                end
            | None => None
            end
          else None
      end
  end
with parse_members (fuel : nat) (acc : list (jsstring * json)) (s : jsstring)
  : option (list (jsstring * json) * jsstring) :=
  match fuel with
  | O => None
  | S fuel =>
      match s with
      | [] => None
      | q :: r =>
          if q =? 34 then
            match parse_chars r with
            | None => None
            | Some (k, r1) =>
                match skip_ws r1 with
                | [] => None
                | c :: r2 =>
                    if c =? 58 then
                      match parse_value fuel (skip_ws r2) with
                      | None => None
                      | Some (v, r3) =>
                          match skip_ws r3 with
                          | [] => None
                          | d :: r4 =>
                              if d =? 125 then Some (obj_set acc k v, r4)
                              else if d =? 44 then
                                parse_members fuel (obj_set acc k v) (skip_ws r4)
                              else None
                          end
                      end
                    else None
                end
            end
          else None
      end
  end.

(** [JSON.parse(text)]; [None] is the [SyntaxError] it throws. *)
Definition JSON_parse (text : jsstring) : option json :=
  match parse_value (S (length text)) (skip_ws text) with
  | Some (v, r) => if falsy (skip_ws r) then Some v else None
  | None => None
  end.

(** ** Records as JavaScript values

    [json_of_groups] and [json_of_notes] are the arrays of object literals
    the component holds in [groups] and [notes]; the [*_of_json] functions
    recognise the values of that shape (the properties of the literals, in
    their order, with string values, [groupId] a string or [null]) and fail
    on every other value. *)
Definition json_of_group (g : Group.t) : json :=
  JObj [(str "id", JStr (Group.id g)); (str "name", JStr (Group.name g));
        (str "color", JStr (Group.color g));
        (str "initials", JStr (Group.initials g))].

Definition json_of_nullable (o : option jsstring) : json :=
  match o with
  | Some s => JStr s
  | None => JNull
  end.

Definition json_of_note (n : Note.t) : json :=
  JObj [(str "id", JStr (Note.id n));
        (str "groupId", json_of_nullable (Note.groupId n));
        (str "content", JStr (Note.content n)); (str "date", JStr (Note.date n));
        (str "time", JStr (Note.time n))].

Definition json_of_groups (gs : list Group.t) : json := JArr (map json_of_group gs).
Definition json_of_notes (ns : list Note.t) : json := JArr (map json_of_note ns).

Definition as_nullable (v : json) : option (option jsstring) :=
  match v with
  | JStr s => Some (Some s)
  | JNull => Some None
  | _ => None
  end.

Definition group_of_json (v : json) : option Group.t :=
  match v with
  | JObj [(k1, JStr i); (k2, JStr n); (k3, JStr c); (k4, JStr a)] =>
      if bool_decide (k1 = str "id" /\ k2 = str "name" /\ k3 = str "color"
                      /\ k4 = str "initials")
      then Some (Group.mk i n c a)
      else None
  | _ => None
  end.

Definition note_of_json (v : json) : option Note.t :=
  match v with
  | JObj [(k1, JStr i); (k2, g); (k3, JStr c); (k4, JStr d); (k5, JStr t)] =>
      match as_nullable g with
      | Some gid =>
          if bool_decide (k1 = str "id" /\ k2 = str "groupId" /\ k3 = str "content"
                          /\ k4 = str "date" /\ k5 = str "time")
          then Some (Note.mk i gid c d t)
          else None
      | None => None
      end
  | _ => None
  end.

Definition groups_of_json (v : json) : option (list Group.t) :=
  match v with
  | JArr vs => mapM group_of_json vs
  | _ => None
  end.

Definition notes_of_json (v : json) : option (list Note.t) :=
  match v with
  | JArr vs => mapM note_of_json vs
  | _ => None
  end.

(** ** The component and its storage *)

Definition pocketGroups : jsstring := str "pocketGroups".
Definition pocketNotes : jsstring := str "pocketNotes".

(** What the component does to its environment. *)
Inductive IO : Type :=
  | getItem (key : jsstring)
  | setItem (key value : jsstring)
  | alerted (msg : jsstring).

Record World : Type := mkWorld
  { app : AppState;
    localStorage : gmap jsstring jsstring;
    trace : list IO }.

(** Lines 33-34 and 38-39: [saved ? JSON.parse(saved) : []], where [saved]
    is [null] for a missing key.  [None] is the [SyntaxError] of
    [JSON.parse]. *)
Definition loadSlot (saved : option jsstring) : option json :=
  match saved with
  | Some text => if falsy text then Some (JArr []) else JSON_parse text
  | None => Some (JArr [])
  end.

(** Lines 59-66, the two write-through effects. *)
Definition saveGroups (s : AppState) : jsstring * jsstring :=
  (pocketGroups, JSON_stringify (json_of_groups (groups s))).

Definition saveNotes (s : AppState) : jsstring * jsstring :=
  (pocketNotes, JSON_stringify (json_of_notes (notes s))).

Definition write (kv : jsstring * jsstring) (w : World) : World :=
  {| app := app w;
     localStorage := <[fst kv := snd kv]> (localStorage w);
     trace := trace w ++ [setItem (fst kv) (snd kv)] |}.

(** The code that runs while the component starts works on the storage and
    appends to the trace; what it returns is a value, or [None] for an
    exception thrown. *)
Definition Env : Type := gmap jsstring jsstring * list IO.

(** [localStorage.getItem(key)]: [null] ([None]) for a missing key. *)
Definition localStorage_getItem (key : jsstring) (env : Env)
  : option jsstring * Env :=
  (fst env !! key, (fst env, snd env ++ [getItem key])).

(** Lines 32-35, the initialiser of [groups]. *)
Definition initGroups (env : Env) : option json * Env :=
  let (saved, env') := localStorage_getItem pocketGroups env in
  (loadSlot saved, env').

(** Lines 37-40, the initialiser of [notes]. *)
Definition initNotes (env : Env) : option json * Env :=
  let (saved, env') := localStorage_getItem pocketNotes env in
  (loadSlot saved, env').

(** The two initialisers as the first render runs them: in the order of the
    [useState] calls, each once; an exception ends the render.  The result
    is the pair of values the two collections start with. *)
Definition runInitialisers (env : Env) : option (json * json) * Env :=
  match initGroups env with
  | (None, env1) => (None, env1)
  | (Some vg, env1) =>
      match initNotes env1 with
      | (None, env2) => (None, env2)
      | (Some vn, env2) => (Some (vg, vn), env2)
      end
  end.

(** The start of the component: the first render, then both effects.  A
    payload that does not parse stops the component ([BootSyntaxError]).
    One that parses to something else than an array of records as the
    component writes them is loaded all the same, as [runInitialisers]
    says, but puts a value into the state that the typed [AppState] of the
    handlers does not describe, and on which the rest of the render may
    throw ([BootForeign]). *)
Inductive Boot : Type :=
  | Booted (w : World)
  | BootSyntaxError
  | BootForeign.

Definition mount (ls : gmap jsstring jsstring) : Boot :=
  match runInitialisers (ls, []) with
  | (None, _) => BootSyntaxError
  | (Some (vg, vn), env) =>
      match groups_of_json vg, notes_of_json vn with
      | Some gs, Some ns =>
          let s := {| groups := gs; notes := ns; selectedGroupId := None;
                      isModalOpen := false; groupName := [];
                      selectedColor := GROUP_COLORS_0; noteText := [] |} in
          Booted
            (write (saveNotes s)
               (write (saveGroups s)
                  {| app := s; localStorage := fst env; trace := snd env |}))
      | _, _ => BootForeign
      end
  end.

(** A state setter takes effect at the next render. *)
Definition apply_call (s : AppState) (c : Call) : AppState :=
  match c with
  | alert _ => s
  | setGroups gs =>
      mkApp gs (notes s) (selectedGroupId s) (isModalOpen s) (groupName s)
        (selectedColor s) (noteText s)
  | setNotes ns =>
      mkApp (groups s) ns (selectedGroupId s) (isModalOpen s) (groupName s)
        (selectedColor s) (noteText s)
  | setSelectedGroupId sel =>
      mkApp (groups s) (notes s) sel (isModalOpen s) (groupName s)
        (selectedColor s) (noteText s)
  | setIsModalOpen b =>
      mkApp (groups s) (notes s) (selectedGroupId s) b (groupName s)
        (selectedColor s) (noteText s)
  | setGroupName n =>
      mkApp (groups s) (notes s) (selectedGroupId s) (isModalOpen s) n
        (selectedColor s) (noteText s)
  | setSelectedColor c =>
      mkApp (groups s) (notes s) (selectedGroupId s) (isModalOpen s)
        (groupName s) c (noteText s)
  | setNoteText t =>
      mkApp (groups s) (notes s) (selectedGroupId s) (isModalOpen s)
        (groupName s) (selectedColor s) t
  end.

Definition alerts (calls : list Call) : list IO :=
  omap (fun c => match c with alert m => Some (alerted m) | _ => None end) calls.

Definition sets_groups (calls : list Call) : bool :=
  existsb (fun c => match c with setGroups _ => true | _ => false end) calls.

Definition sets_notes (calls : list Call) : bool :=
  existsb (fun c => match c with setNotes _ => true | _ => false end) calls.

(** After a handler has run: the alerts it raised, the render with the new
    state, and the effects whose dependency ([groups], [notes]) was given a
    new array (every [setGroups] and [setNotes] of the source passes a fresh
    array).  Events are handled one at a time, with a render between two of
    them, so that each handler reads the state its predecessor left. *)
Definition commit (calls : list Call) (w : World) : World :=
  let s' := fold_left apply_call calls (app w) in
  let w1 := {| app := s'; localStorage := localStorage w;
               trace := trace w ++ alerts calls |} in
  let w2 := if sets_groups calls then write (saveGroups s') w1 else w1 in
  if sets_notes calls then write (saveNotes s') w2 else w2.

Section Component.

Context {cm : CaseMapping}.

Context (toLocaleDateString_en_GB : N -> jsstring).
Context (toLocaleTimeString_en_US : N -> jsstring).

(** The events of the user interface that reach the store, with the clock
    readings the handler takes. *)
Inductive Event : Type :=
  | TypeGroupName (value : jsstring)   (* line 222 *)
  | PickColor (color : jsstring)       (* line 228 *)
  | ClickCreate (now : N)              (* line 232 *)
  | ClickGroup (id : jsstring)         (* line 149 *)
  | ClickBack                          (* line 167 *)
  | TypeNote (value : jsstring)        (* line 189 *)
  | Send (dateObj now : N)             (* lines 132 and 192 *)
  | OpenModal                          (* line 158 *)
  | ClickOutside.                      (* lines 79-85 *)

Definition handler (e : Event) (s : AppState) : list Call :=
  match e with
  | TypeGroupName v => [setGroupName v]
  | PickColor c => [setSelectedColor c]
  | ClickCreate now => handleCreateGroup now s
  | ClickGroup i => [setSelectedGroupId (Some i)]
  | ClickBack => [setSelectedGroupId None]
  | TypeNote v => [setNoteText v]
  | Send dateObj now =>
      handleAddNote toLocaleDateString_en_GB toLocaleTimeString_en_US dateObj now s
  | OpenModal => [setIsModalOpen true]
  | ClickOutside => if isModalOpen s then [setIsModalOpen false; setGroupName []] else []
  end.

Definition step (w : World) (e : Event) : World := commit (handler e (app w)) w.

Definition run (w : World) (es : list Event) : World := fold_left step es w.

(** The operations of the store as the presentation layer drives them:
    [createGroup(name, color)] fills the form of the modal and presses
    Create; [addNote(groupId, content)] is Send with [groupId] the selection
    and [content] in the text area. *)
Definition createGroup (name color : jsstring) (now : N) (w : World) : World :=
  run w [TypeGroupName name; PickColor color; ClickCreate now].

Definition select (groupId : option jsstring) : Event :=
  match groupId with
  | Some i => ClickGroup i
  | None => ClickBack
  end.

Definition addNote (groupId : option jsstring) (content : jsstring)
  (dateObj now : N) (w : World) : World :=
  run w [select groupId; TypeNote content; Send dateObj now].

End Component.

(** The component state of the first render when nothing was stored. *)
Definition initialState : AppState :=
  {| groups := []; notes := []; selectedGroupId := None; isModalOpen := false;
     groupName := []; selectedColor := GROUP_COLORS_0; noteText := [] |}.

(** The records the two handlers build (lines 100-105 and 117-123). *)
Definition newGroup {cm : CaseMapping} (name color : jsstring) (now : N) : Group.t :=
  {| Group.id := newId now; Group.name := trim name; Group.color := color;
     Group.initials := getInitials name |}.

Definition newNote (toLocaleDateString_en_GB toLocaleTimeString_en_US : N -> jsstring)
  (groupId : option jsstring) (content : jsstring) (dateObj now : N) : Note.t :=
  {| Note.id := newId now; Note.groupId := groupId; Note.content := content;
     Note.date := formatDate toLocaleDateString_en_GB dateObj;
     Note.time := formatTime toLocaleTimeString_en_US dateObj |}.

Definition listGroups (w : World) : list Group.t := groups (app w).

Definition listNotesFor (groupId : option jsstring) (w : World) : list Note.t :=
  filter (fun n => Note.groupId n = groupId) (notes (app w)).

(** The notification of line 96, the outcome the specification calls
    [DuplicateNameError]. *)
Definition DuplicateNameError : list Call :=
  [alert (str "Group name already exists!")].

(** The group a run of [handleCreateGroup] has created: the [newGroup] of
    line 100, which line 107 puts last into the array it hands to
    [setGroups].  The handler has no [return] with a value; this record is
    what [createGroup] of the specification returns. *)
Definition created (calls : list Call) : option Group.t :=
  match calls with
  | setGroups gs :: _ => last gs
  | _ => None
  end.

(** The comparison of line 95: two names are the same when their lower-case
    forms are. *)
Definition ci_equal {cm : CaseMapping} (a b : jsstring) : Prop := toLowerCase a = toLowerCase b.

Definition whitespace_only (s : jsstring) : Prop := Forall (fun c => is_ws c = true) s.

Definition is_word (s : jsstring) : Prop := Forall (fun c => is_ws c = false) s.

(** The result of [parse_chars] on a literal whose next code unit denotes
    [c] and which goes on with [r]. *)
Definition parse_chars_after (c : N) (r : jsstring) : option (jsstring * jsstring) :=
  match parse_chars r with
  | Some (x, r3) => Some (c :: x, r3)
  | None => None
  end.

(** The values of the fields of a record: a string or [null]. *)
Definition is_scalar (v : json) : Prop :=
  match v with
  | JStr _ | JNull => True
  | _ => False
  end.

(** The text of one property and what reading the properties in turn builds *)
Definition member_text (m : jsstring * json) : jsstring :=
  quote (fst m) ++ [58] ++ JSON_stringify (snd m).

Definition set_all (acc ms : list (jsstring * json)) : list (jsstring * json) :=
  fold_left (fun a m => obj_set a (fst m) (snd m)) ms acc.

(** An object literal of the component: at least one property, scalar
    values, no key twice. *)
Definition is_record (v : json) : Prop :=
  match v with
  | JObj ms => ms <> [] /\ Forall (fun m => is_scalar (snd m)) ms /\ set_all [] ms = ms
  | _ => False
  end.

(** The elements of an array after the first, each behind its comma. *)
Definition tail_text (vs : list json) : jsstring :=
  concat (map (fun v => 44 :: JSON_stringify v) vs).

(** The collections and the storage agree: each slot holds the text of its
    collection. *)
Definition in_sync (w : World) : Prop :=
  localStorage w !! pocketGroups
  = Some (JSON_stringify (json_of_groups (groups (app w))))
  /\ localStorage w !! pocketNotes
     = Some (JSON_stringify (json_of_notes (notes (app w)))).

(** A slot whose payload [JSON.parse] rejects, and what a slot that has no
    such payload gives its collection: the empty array when the slot is
    absent or holds the empty string, and what [JSON.parse] makes of the
    payload otherwise. *)
Definition unreadable (ls : gmap jsstring jsstring) (key : jsstring) : Prop :=
  exists text, ls !! key = Some text /\ text <> [] /\ JSON_parse text = None.

Definition loaded_from (ls : gmap jsstring jsstring) (key : jsstring) (v : json)
  : Prop :=
  (ls !! key = None -> v = JArr [])
  /\ (ls !! key = Some [] -> v = JArr [])
  /\ (forall text, ls !! key = Some text -> text <> [] -> JSON_parse text = Some v).

#[global] Instance IO_eq_dec : EqDecision IO.
Proof. solve_decision. Defined.

(** How often the trace reads a key. *)
Definition reads (key : jsstring) (t : list IO) : nat :=
  length (filter (fun io => io = getItem key) t).

(** Renderings for the closed examples, in which the labels play no part. *)
Definition fixed_date (_ : N) : jsstring := str "1 Nov 2026".
Definition fixed_time (_ : N) : jsstring := str "1:03 PM".

(** The component after its first render on an empty storage. *)
Definition first_run : World :=
  write (saveNotes initialState)
    (write (saveGroups initialState)
       {| app := initialState; localStorage := ∅;
          trace := [getItem pocketGroups; getItem pocketNotes] |}).

(** A text of the examples, written with the apostrophe where the text has
    the double quote. *)
Definition dq (s : jsstring) : jsstring := map (fun c => if c =? 39 then 34 else c) s.

(** [s] begins with the word [w1], white space, and the word [w2], which
    ends [s] or is followed by white space. *)
Definition first_two_words (s w1 w2 : jsstring) : Prop :=
  exists sep rest,
    s = w1 ++ sep ++ w2 ++ rest
    /\ w1 <> [] /\ is_word w1 /\ sep <> [] /\ whitespace_only sep
    /\ w2 <> [] /\ is_word w2
    /\ (rest = [] \/ exists c r, rest = c :: r /\ is_ws c = true).

(** ** Further predicates and the rest of the component

    A non-empty string of decimal digits, the shape of an identifier. *)
Definition is_digits (s : jsstring) : Prop :=
  s <> [] /\ Forall (fun c => 48 <= c <= 57) s.

(** A group as [handleCreateGroup] builds it: the name is trimmed and not
    empty, the initials are those of the name, the identifier is a number. *)
Definition group_wf {cm : CaseMapping} (g : Group.t) : Prop :=
  trim (Group.name g) = Group.name g /\ Group.name g <> []
  /\ Group.initials g = getInitials (Group.name g)
  /\ is_digits (Group.id g).

(** No two groups have the same name for the comparison of line 95. *)
Definition names_distinct {cm : CaseMapping} (gs : list Group.t) : Prop :=
  NoDup (map (fun g => toLowerCase (Group.name g)) gs).

(** A note as [handleAddNote] builds it: content that is not blank and a
    number as identifier. *)
Definition note_wf (n : Note.t) : Prop :=
  trim (Note.content n) <> [] /\ is_digits (Note.id n).

(** The truth value of [selectedGroupId] in a condition: [null] and the
    empty string are falsy. *)
Definition truthy (sel : option jsstring) : bool :=
  match sel with
  | Some (_ :: _) => true
  | _ => false
  end.

(** Lines 46 and 72: the value given to [isMobile] for a window width. *)
Definition handleResize (innerWidth : N) : bool := innerWidth <? 768.

(** Lines 142 and 162: whether the side bar and the main pane are displayed
    ([true] for 'flex', [false] for 'none'), and line 163: whether the main
    pane holds the notes of a group rather than the first screen. *)
Definition sidebarShown (isMobile : bool) (s : AppState) : bool :=
  negb (isMobile && truthy (selectedGroupId s)).

Definition mainShown (isMobile : bool) (s : AppState) : bool :=
  negb (isMobile && negb (truthy (selectedGroupId s))).

Definition notesViewShown (s : AppState) : bool := truthy (selectedGroupId s).

(** Line 192: the [disabled] attribute of the send button. *)
Definition sendDisabled (s : AppState) : bool := falsy (trim (noteText s)).

(** Lines 129-134: whether [preventDefault] is called, and the calls made. *)
Definition handleKeyDown (toLocaleDateString_en_GB toLocaleTimeString_en_US : N -> jsstring)
  (key : jsstring) (shiftKey : bool) (dateObj now : N) (s : AppState)
  : bool * list Call :=
  if bool_decide (key = str "Enter") && negb shiftKey
  then (true, handleAddNote toLocaleDateString_en_GB toLocaleTimeString_en_US
                dateObj now s)
  else (false, []).

(** Lines 227-228: the colour picker offers the colours of [GROUP_COLORS]
    only. *)
Definition palette_only (es : list Event) : Prop :=
  Forall (fun e => forall c, e = PickColor c -> c ∈ GROUP_COLORS) es.

(** A session for the closed examples. *)
Definition sample_events : list Event :=
  [OpenModal; TypeGroupName (str " Mom Dad "); PickColor (str "#43E6FC");
   ClickCreate 1700000000000; OpenModal; TypeGroupName (str "mom dad");
   ClickCreate 1700000000500; ClickGroup (str "1700000000000");
   TypeNote (str " Dinner at 7 "); Send 1700000001000 1700000001000;
   Send 1700000001001 1700000001001; ClickBack].

(** The clock readings taken by the Create clicks and by the sends of a
    session. *)
Definition create_times (es : list Event) : list N :=
  omap (fun e => match e with ClickCreate now => Some now | _ => None end) es.

Definition send_times (es : list Event) : list N :=
  omap (fun e => match e with Send _ now => Some now | _ => None end) es.

(** * Properties *)

(** ** Sanity checks of the built-ins *)

Example JSON_stringify_samples :
  JSON_stringify
    (json_of_groups [Group.mk (str "17") (str "Mom Dad") (str "#B38BFA") (str "MD")])
  = dq (str "[{'id':'17','name':'Mom Dad','color':'#B38BFA','initials':'MD'}]")
  /\ JSON_stringify
       (json_of_notes [Note.mk (str "18") None ([32; 34; 10] ++ str "hi") (str "1 Nov 2026")
                         (str "1:03 PM");
                       Note.mk (str "19") (Some (str "17")) [55357; 56832; 56832; 1]
                         (str "1 Nov 2026") (str "1:04 PM")])
     = dq (str "[{'id':'18','groupId':null,'content':' \") ++ [34]
       ++ dq (str "\nhi','date':'1 Nov 2026','time':'1:03 PM'},")
       ++ dq (str "{'id':'19','groupId':'17','content':'") ++ [55357; 56832]
       ++ dq (str "\ude00\u0001','date':'1 Nov 2026','time':'1:04 PM'}]")
  /\ JSON_stringify (json_of_groups []) = str "[]".
Proof. repeat split; reflexivity. Qed.

Example JSON_parse_samples :
  JSON_parse (dq (str " [ {'a' : 'x\u0041\n\uD83d', 'b':null, 'a':-1.5e+3, 'c':'\/'} , true,[ ] ] "))
  = Some (JArr [JObj [(str "a", JNum (str "-1.5e+3")); (str "b", JNull);
                      (str "c", JStr (str "/"))];
                JBool true; JArr []])
  /\ JSON_parse (dq (str "'x\u0041\n\uD83d'")) = Some (JStr [120; 65; 10; 55357])
  /\ JSON_parse (str "-0.5E2 ") = Some (JNum (str "-0.5E2")).
Proof. repeat split; reflexivity. Qed.

Example JSON_parse_rejects :
  JSON_parse [] = None /\ JSON_parse (str "[1,]") = None
  /\ JSON_parse (str "01") = None /\ JSON_parse (str "nul") = None
  /\ JSON_parse (dq (str "'a")) = None /\ JSON_parse (dq (str "{'a':1,}")) = None
  /\ JSON_parse (34 :: 9 :: [34]) = None /\ JSON_parse (str "1 2") = None.
Proof. repeat split; reflexivity. Qed.

(** The properties of a parsed object are listed with the array indices
    first. *)
Example JSON_parse_order :
  JSON_parse (dq (str "{'b':1,'10':2,'2':3,'01':4,'2':5,'b':6}"))
  = Some (JObj [(str "2", JNum (str "5")); (str "10", JNum (str "2"));
                (str "b", JNum (str "6")); (str "01", JNum (str "4"))]).
Proof. reflexivity. Qed.

Example trim_sample : trim (str "  Mom  Dad ") = str "Mom  Dad".
Proof. reflexivity. Qed.

Example split_samples :
  split_ws (str "Mom  Dad") = [str "Mom"; str "Dad"]
  /\ split_ws [] = [[]]
  /\ split_ws (str " a ") = [[]; str "a"; []].
Proof. repeat split; reflexivity. Qed.

Example case_samples :
  toUpperCase (CaseMapping := Latin1) (str "md7") = str "MD7"
  /\ toLowerCase (CaseMapping := Latin1) (str "Family") = str "family"
  /\ toUpperCase (CaseMapping := Latin1) [223] = str "SS"
  /\ toLowerCase (CaseMapping := Latin1) [223] = [223]
  /\ toUpperCase (CaseMapping := Latin1) [99; 97; 102; 233] = [67; 65; 70; 201]
  /\ toLowerCase (CaseMapping := Latin1) [67; 65; 70; 201] = [99; 97; 102; 233].
Proof. repeat split; reflexivity. Qed.

Example toString_sample : toString 1700000000000 = str "1700000000000".
Proof. reflexivity. Qed.

(** ** The start, case by case *)

Lemma runInitialisers_unfold (ls : gmap jsstring jsstring) (t : list IO) :
  runInitialisers (ls, t)
  = match loadSlot (ls !! pocketGroups) with
    | None => (None, (ls, t ++ [getItem pocketGroups]))
    | Some vg =>
        match loadSlot (ls !! pocketNotes) with
        | None => (None, (ls, t ++ [getItem pocketGroups; getItem pocketNotes]))
        | Some vn =>
            (Some (vg, vn), (ls, t ++ [getItem pocketGroups; getItem pocketNotes]))
        end
    end.
Proof.
  unfold runInitialisers, initGroups, initNotes, localStorage_getItem. cbn [fst snd].
  destruct (loadSlot (ls !! pocketGroups)); [|reflexivity].
  cbn [fst snd]. rewrite <- app_assoc.
  destruct (loadSlot (ls !! pocketNotes)); reflexivity.
Qed.

Lemma mount_unfold (ls : gmap jsstring jsstring) :
  mount ls
  = match loadSlot (ls !! pocketGroups) with
    | None => BootSyntaxError
    | Some vg =>
        match loadSlot (ls !! pocketNotes) with
        | None => BootSyntaxError
        | Some vn =>
            match groups_of_json vg, notes_of_json vn with
            | Some gs, Some ns =>
                let s := {| groups := gs; notes := ns; selectedGroupId := None;
                            isModalOpen := false; groupName := [];
                            selectedColor := GROUP_COLORS_0; noteText := [] |} in
                Booted
                  (write (saveNotes s)
                     (write (saveGroups s)
                        {| app := s; localStorage := ls;
                           trace := [getItem pocketGroups; getItem pocketNotes] |}))
            | _, _ => BootForeign
            end
        end
    end.
Proof.
  unfold mount. rewrite runInitialisers_unfold.
  destruct (loadSlot (ls !! pocketGroups)); [|reflexivity].
  destruct (loadSlot (ls !! pocketNotes)); reflexivity.
Qed.

(** ** White space and [trim] *)

Lemma trimStart_whitespace (s : jsstring) : whitespace_only s -> trimStart s = [].
Proof.
  induction 1 as [|c r Hc _ IH]; simpl; [reflexivity|].
  now rewrite Hc.
Qed.

Lemma trim_whitespace (s : jsstring) : whitespace_only s -> trim s = [].
Proof.
  intros H. unfold trim, trimEnd. now rewrite (trimStart_whitespace s H).
Qed.

(** What [trimStart] returns is empty or starts with a code unit that is not
    white space, and it is a suffix of its argument after white space. *)
Lemma trimStart_split (s : jsstring) :
  exists a, whitespace_only a /\ s = a ++ trimStart s
            /\ (trimStart s = [] \/ exists c r, trimStart s = c :: r /\ is_ws c = false).
Proof.
  induction s as [|c r (a & Ha & Heq & Hhd)]; simpl.
  - exists []. repeat split; [constructor | now left].
  - destruct (is_ws c) eqn:Hc.
    + exists (c :: a). repeat split; [now constructor | simpl; now f_equal | exact Hhd].
    + exists []. repeat split; [constructor | right; now exists c, r].
Qed.

Lemma trimStart_nil (s : jsstring) : trimStart s = [] -> whitespace_only s.
Proof.
  intros H. destruct (trimStart_split s) as (a & Ha & Hs & _).
  rewrite H, app_nil_r in Hs. now rewrite Hs.
Qed.

(** The test of lines 92 and 114, [!s.trim()], holds exactly for the strings
    made of white space only. *)
Lemma trim_nil_iff (s : jsstring) : trim s = [] <-> whitespace_only s.
Proof.
  split; [|apply trim_whitespace].
  unfold trim, trimEnd. intros H.
  assert (Hr : trimStart (rev (trimStart s)) = []).
  { rewrite <- (rev_involutive (trimStart (rev (trimStart s)))), H. reflexivity. }
  apply trimStart_nil, List.Forall_rev in Hr. rewrite rev_involutive in Hr.
  destruct (trimStart_split s) as (a & Ha & Hs & [Hn | (c & r & Hc & Hw)]).
  - now apply trimStart_nil.
  - rewrite Hc in Hr. apply Forall_cons in Hr as [Hr _]. congruence.
Qed.

Lemma falsy_false (s : jsstring) : s <> [] -> falsy s = false.
Proof. now destruct s. Qed.

(** From here on the two renderings of [Intl] are arbitrary; a primed name is
    the definition of that name at these renderings. *)
Section WithLocale.

Context {cm : CaseMapping}.

Context (toLocaleDateString_en_GB : N -> jsstring).
Context (toLocaleTimeString_en_US : N -> jsstring).

Abbreviation handleAddNote' :=
  (handleAddNote toLocaleDateString_en_GB toLocaleTimeString_en_US).
Abbreviation handler' := (handler toLocaleDateString_en_GB toLocaleTimeString_en_US).
Abbreviation step' := (step toLocaleDateString_en_GB toLocaleTimeString_en_US).
Abbreviation run' := (run toLocaleDateString_en_GB toLocaleTimeString_en_US).
Abbreviation createGroup' :=
  (createGroup toLocaleDateString_en_GB toLocaleTimeString_en_US).
Abbreviation addNote' := (addNote toLocaleDateString_en_GB toLocaleTimeString_en_US).
Abbreviation newNote' := (newNote toLocaleDateString_en_GB toLocaleTimeString_en_US).

Lemma commit_nil (w : World) : commit [] w = w.
Proof. destruct w. unfold commit. simpl. now rewrite app_nil_r. Qed.

(** Filling the note form: selection and text change, nothing else does. *)
Lemma note_form (groupId : option jsstring) (content : jsstring) (w : World) :
  run' w [select groupId; TypeNote content]
  = {| app := mkApp (groups (app w)) (notes (app w)) groupId (isModalOpen (app w))
                (groupName (app w)) (selectedColor (app w)) content;
       localStorage := localStorage w; trace := trace w |}.
Proof. destruct groupId; cbn; now rewrite !app_nil_r. Qed.

Lemma addNote_unfold (groupId : option jsstring) (content : jsstring)
  (dateObj now : N) (w : World) :
  addNote' groupId content dateObj now w
  = commit (handleAddNote' dateObj now
              (app (run' w [select groupId; TypeNote content])))
      (run' w [select groupId; TypeNote content]).
Proof. reflexivity. Qed.

Lemma handleAddNote_blank (dateObj now : N) (s : AppState) :
  whitespace_only (noteText s) -> handleAddNote' dateObj now s = [].
Proof.
  intros H. unfold handleAddNote. now rewrite (trim_whitespace _ H).
Qed.

Lemma handleAddNote_text (dateObj now : N) (s : AppState) :
  trim (noteText s) <> [] ->
  handleAddNote' dateObj now s
  = [setNotes (notes s ++ [newNote' (selectedGroupId s) (noteText s) dateObj now]);
     setNoteText []].
Proof.
  intros H. unfold handleAddNote. now rewrite (falsy_false _ H).
Qed.

Lemma commit_setNotes (ns : list Note.t) (w : World) :
  commit [setNotes ns; setNoteText []] w
  = write (saveNotes (mkApp (groups (app w)) ns (selectedGroupId (app w))
                        (isModalOpen (app w)) (groupName (app w))
                        (selectedColor (app w)) []))
      {| app := mkApp (groups (app w)) ns (selectedGroupId (app w))
                  (isModalOpen (app w)) (groupName (app w))
                  (selectedColor (app w)) [];
         localStorage := localStorage w; trace := trace w |}.
Proof. unfold commit. cbn. now rewrite app_nil_r. Qed.

(** What [addNote] does with content that is not blank. *)
Lemma addNote_text (groupId : option jsstring) (content : jsstring)
  (dateObj now : N) (w : World) :
  trim content <> [] ->
  let ns := notes (app w) ++ [newNote' groupId content dateObj now] in
  let text := JSON_stringify (json_of_notes ns) in
  addNote' groupId content dateObj now w
  = {| app := mkApp (groups (app w)) ns groupId (isModalOpen (app w))
                (groupName (app w)) (selectedColor (app w)) [];
       localStorage := <[pocketNotes := text]> (localStorage w);
       trace := trace w ++ [setItem pocketNotes text] |}.
Proof.
  intros H ns text. rewrite addNote_unfold, note_form. cbn [app].
  rewrite handleAddNote_text by exact H. cbn [notes selectedGroupId noteText].
  rewrite commit_setNotes. reflexivity.
Qed.

(** C5.  Empty or white-space-only content: [handleAddNote] returns at line
    114 without a call, and [addNote] leaves the group collection, the note
    collection, the storage and the trace of the environment as they were. *)
Theorem addNote_blank_noop (groupId : option jsstring) (content : jsstring)
  (dateObj now : N) (w : World) :
  whitespace_only content ->
  handleAddNote' dateObj now (app (run' w [select groupId; TypeNote content])) = []
  /\ groups (app (addNote' groupId content dateObj now w)) = groups (app w)
  /\ notes (app (addNote' groupId content dateObj now w)) = notes (app w)
  /\ localStorage (addNote' groupId content dateObj now w) = localStorage w
  /\ trace (addNote' groupId content dateObj now w) = trace w.
Proof.
  intros H.
  assert (Hh : handleAddNote' dateObj now
                 (app (run' w [select groupId; TypeNote content])) = []).
  { apply handleAddNote_blank. rewrite note_form. exact H. }
  split; [exact Hh|].
  rewrite addNote_unfold, Hh, commit_nil, note_form. cbn. auto.
Qed.

(** ** The view projection *)

Lemma listNotesFor_app (groupId : option jsstring) (w : World) (n : Note.t)
  (s : AppState) (ls : gmap jsstring jsstring) (t : list IO) :
  notes s = notes (app w) ++ [n] ->
  listNotesFor groupId (mkWorld s ls t)
  = if decide (Note.groupId n = groupId)
    then listNotesFor groupId w ++ [n] else listNotesFor groupId w.
Proof.
  intros H. unfold listNotesFor. cbn [app]. rewrite H, filter_app.
  rewrite filter_cons, filter_nil.
  destruct (decide (Note.groupId n = groupId)); [reflexivity | apply app_nil_r].
Qed.

(** C6.  [listNotesFor groupId] (the filter of line 137, which [currentNotes]
    applies to the selection) holds exactly the notes of the collection whose
    [groupId] is [groupId], in the order of the collection: it is the
    collection with the notes of other groups left out.  The order of the
    collection is the order of addition: a note added to [groupId] comes last
    in its list, a note added to another group leaves the list as it was. *)
Theorem listNotesFor_exact_in_order (groupId : option jsstring) (w : World) :
  (forall n, n ∈ listNotesFor groupId w
             <-> n ∈ notes (app w) /\ Note.groupId n = groupId)
  /\ sublist (listNotesFor groupId w) (notes (app w))
  /\ currentNotes (app w) = listNotesFor (selectedGroupId (app w)) w
  /\ (forall g content dateObj now,
        trim content <> [] ->
        listNotesFor groupId (addNote' g content dateObj now w)
        = if decide (g = groupId)
          then listNotesFor groupId w ++ [newNote' g content dateObj now]
          else listNotesFor groupId w).
Proof.
  split; [|split; [|split]].
  - intros n. unfold listNotesFor. rewrite list_elem_of_filter. tauto.
  - apply sublist_filter.
  - reflexivity.
  - intros g content dateObj now H.
    rewrite addNote_text by exact H.
    now rewrite (listNotesFor_app groupId w (newNote' g content dateObj now)).
Qed.

(** ** Identifiers *)

Lemma digits_inj (a b : Decimal.uint) : digits a = digits b -> a = b.
Proof.
  revert b.
  induction a; destruct b; simpl; intros H; try discriminate H;
    try reflexivity; injection H as H; f_equal; auto.
Qed.

Lemma toString_inj (a b : N) : toString a = toString b -> a = b.
Proof.
  intros H. apply digits_inj in H.
  rewrite <- (DecimalN.Unsigned.of_to a), <- (DecimalN.Unsigned.of_to b).
  now rewrite H.
Qed.

(** ** Case mapping on ASCII names *)

Lemma ascii_up_ws (c : N) : c < 128 -> is_ws (ascii_up c) = is_ws c.
Proof.
  intros H. unfold ascii_up.
  destruct (N.leb_spec 97 c), (N.leb_spec c 122); simpl; unfold is_ws; case_tests.
Qed.

Lemma ascii_down_up (c : N) : c < 128 -> ascii_down (ascii_up c) = ascii_down c.
Proof.
  intros H. unfold ascii_up, ascii_down.
  destruct (N.leb_spec 97 c), (N.leb_spec c 122); simpl; case_tests; simpl; lia.
Qed.

Lemma ascii_only_up (s : jsstring) : ascii_only s -> ascii_only (map ascii_up s).
Proof.
  induction 1 as [|c r Hc _ IH]; simpl; constructor; [|exact IH].
  unfold ascii_up. destruct ((97 <=? c) && (c <=? 122)); lia.
Qed.

Lemma toUpperCase_ascii (s : jsstring) : ascii_only s -> toUpperCase s = map ascii_up s.
Proof. apply toUpperCase_Basic_Latin. Qed.

Lemma toUpperCase_nil : toUpperCase [] = [].
Proof. apply (toUpperCase_ascii []). constructor. Qed.

Lemma toLowerCase_ascii_up (s : jsstring) :
  ascii_only s -> toLowerCase (map ascii_up s) = toLowerCase s.
Proof.
  intros Hs.
  rewrite (toLowerCase_Basic_Latin _ (ascii_only_up s Hs)),
    (toLowerCase_Basic_Latin s Hs), map_map.
  apply map_ext_in. intros c Hc. apply ascii_down_up.
  eapply List.Forall_forall in Hs; [exact Hs | exact Hc].
Qed.

Lemma Forall_trimStart (P : N -> Prop) (s : jsstring) :
  Forall P s -> Forall P (trimStart s).
Proof.
  induction 1 as [|c r Hc Hr IH]; simpl; [constructor|].
  destruct (is_ws c); [exact IH | now constructor].
Qed.

Lemma Forall_trim (P : N -> Prop) (s : jsstring) : Forall P s -> Forall P (trim s).
Proof.
  intros H. unfold trim, trimEnd.
  apply List.Forall_rev, Forall_trimStart, List.Forall_rev, Forall_trimStart, H.
Qed.

(** A map on code units that keeps white space white space and the rest the
    rest commutes with [trim]. *)
Lemma trimStart_map (f : N -> N) (s : jsstring) :
  Forall (fun c => is_ws (f c) = is_ws c) s ->
  trimStart (map f s) = map f (trimStart s).
Proof.
  induction 1 as [|c r Hc _ IH]; simpl; [reflexivity|].
  rewrite Hc. destruct (is_ws c); [exact IH | reflexivity].
Qed.

Lemma trim_map (f : N -> N) (s : jsstring) :
  Forall (fun c => is_ws (f c) = is_ws c) s -> trim (map f s) = map f (trim s).
Proof.
  intros H. unfold trim, trimEnd.
  rewrite (trimStart_map f s H), <- map_rev, trimStart_map, map_rev; [reflexivity|].
  apply List.Forall_rev, Forall_trimStart, H.
Qed.

Lemma trim_toUpperCase_ascii (s : jsstring) :
  ascii_only s -> trim (toUpperCase s) = map ascii_up (trim s).
Proof.
  intros H. rewrite (toUpperCase_ascii s H). apply trim_map.
  eapply Forall_impl; [exact H|]. intros c Hc. now apply ascii_up_ws.
Qed.

(** The upper-case form of an ASCII name is the same name for line 95. *)
Lemma ci_equal_upper_ascii (s : jsstring) :
  ascii_only s -> ci_equal (trim (toUpperCase s)) (trim s).
Proof.
  intros H. unfold ci_equal. rewrite (trim_toUpperCase_ascii s H).
  apply toLowerCase_ascii_up, Forall_trim, H.
Qed.

Lemma trim_toUpperCase_nonempty (s : jsstring) :
  ascii_only s -> trim s <> [] -> trim (toUpperCase s) <> [].
Proof.
  intros H Hne. rewrite (trim_toUpperCase_ascii s H).
  destruct (trim s); [congruence | discriminate].
Qed.

(** ** Creating groups *)

Lemma filter_not_elem_of {A : Type} `{EqDecision A} (x : A) (l : list A) :
  x ∉ l -> filter (fun y => y = x) l = [].
Proof.
  induction l as [|y l IH]; intros Hx; [reflexivity|].
  apply not_elem_of_cons in Hx as [Hy Hl].
  rewrite filter_cons_False by congruence. now apply IH.
Qed.

Lemma nameTaken_Exists (gs : list Group.t) (name : jsstring) :
  nameTaken gs name = true
  <-> Exists (fun g => ci_equal (Group.name g) (trim name)) gs.
Proof.
  unfold nameTaken, ci_equal. induction gs as [|g gs IH]; simpl.
  - rewrite Exists_nil. split; [discriminate | tauto].
  - rewrite Exists_cons, orb_true_iff, bool_decide_eq_true, IH. tauto.
Qed.

Lemma handleCreateGroup_blank (now : N) (s : AppState) :
  trim (groupName s) = [] -> handleCreateGroup now s = [].
Proof. intros H. unfold handleCreateGroup. now rewrite H. Qed.

Lemma handleCreateGroup_taken (now : N) (s : AppState) :
  trim (groupName s) <> [] -> nameTaken (groups s) (groupName s) = true ->
  handleCreateGroup now s = DuplicateNameError.
Proof.
  intros H Ht. unfold handleCreateGroup. now rewrite (falsy_false _ H), Ht.
Qed.

Lemma handleCreateGroup_fresh (now : N) (s : AppState) :
  trim (groupName s) <> [] -> nameTaken (groups s) (groupName s) = false ->
  handleCreateGroup now s
  = [setGroups (groups s ++ [newGroup (groupName s) (selectedColor s) now]);
     setIsModalOpen false; setGroupName []; setSelectedColor GROUP_COLORS_0].
Proof.
  intros H Ht. unfold handleCreateGroup. now rewrite (falsy_false _ H), Ht.
Qed.

(** Filling the form of the modal: name and colour change, nothing else. *)
Lemma group_form (name color : jsstring) (w : World) :
  run' w [TypeGroupName name; PickColor color]
  = {| app := mkApp (groups (app w)) (notes (app w)) (selectedGroupId (app w))
                (isModalOpen (app w)) name color (noteText (app w));
       localStorage := localStorage w; trace := trace w |}.
Proof. cbn. now rewrite !app_nil_r. Qed.

Lemma createGroup_unfold (name color : jsstring) (now : N) (w : World) :
  createGroup' name color now w
  = commit (handleCreateGroup now (app (run' w [TypeGroupName name; PickColor color])))
      (run' w [TypeGroupName name; PickColor color]).
Proof. reflexivity. Qed.

Lemma createGroup_blank (name color : jsstring) (now : N) (w : World) :
  trim name = [] ->
  createGroup' name color now w
  = {| app := mkApp (groups (app w)) (notes (app w)) (selectedGroupId (app w))
                (isModalOpen (app w)) name color (noteText (app w));
       localStorage := localStorage w; trace := trace w |}.
Proof.
  intros H. rewrite createGroup_unfold, group_form. cbn [app].
  rewrite handleCreateGroup_blank by exact H. apply commit_nil.
Qed.

Lemma createGroup_taken (name color : jsstring) (now : N) (w : World) :
  trim name <> [] -> nameTaken (groups (app w)) name = true ->
  createGroup' name color now w
  = {| app := mkApp (groups (app w)) (notes (app w)) (selectedGroupId (app w))
                (isModalOpen (app w)) name color (noteText (app w));
       localStorage := localStorage w;
       trace := trace w ++ [alerted (str "Group name already exists!")] |}.
Proof.
  intros H Ht. rewrite createGroup_unfold, group_form. cbn [app].
  rewrite handleCreateGroup_taken by assumption. reflexivity.
Qed.

Lemma createGroup_fresh (name color : jsstring) (now : N) (w : World) :
  trim name <> [] -> nameTaken (groups (app w)) name = false ->
  let gs := groups (app w) ++ [newGroup name color now] in
  let text := JSON_stringify (json_of_groups gs) in
  createGroup' name color now w
  = {| app := mkApp gs (notes (app w)) (selectedGroupId (app w)) false []
                GROUP_COLORS_0 (noteText (app w));
       localStorage := <[pocketGroups := text]> (localStorage w);
       trace := trace w ++ [setItem pocketGroups text] |}.
Proof.
  intros H Ht gs text. rewrite createGroup_unfold, group_form. cbn [app].
  rewrite handleCreateGroup_fresh by assumption.
  unfold commit. cbn. now rewrite app_nil_r.
Qed.

(** After [createGroup] with a name that is not blank the collection holds a
    group of that name, created now or found. *)
Lemma createGroup_name_present (name color : jsstring) (now : N) (w : World) :
  trim name <> [] ->
  Exists (fun g => ci_equal (Group.name g) (trim name))
    (listGroups (createGroup' name color now w)).
Proof.
  intros H. unfold listGroups.
  destruct (nameTaken (groups (app w)) name) eqn:Ht.
  - rewrite createGroup_taken by assumption. cbn. now apply nameTaken_Exists.
  - rewrite createGroup_fresh by assumption. cbn.
    apply Exists_app. right. constructor. reflexivity.
Qed.

(** C1, as the code has it.  A candidate name that is not blank and whose
    trimmed form is, for the comparison of line 95, the name of an existing
    group: [handleCreateGroup] raises the notification and returns, and
    neither collection nor the storage changes.  In particular, for a name
    that is not blank and whose upper-case form is not blank either and is,
    trimmed, the same name for the comparison of line 95, [createGroup]
    followed by [createGroup] of the upper-case name ends in the
    notification at the second call; every ASCII name that is not blank is
    such a name. *)
Theorem createGroup_duplicate_rejected (w : World) :
  (forall name color now,
      trim name <> [] ->
      Exists (fun g => ci_equal (Group.name g) (trim name)) (listGroups w) ->
      handleCreateGroup now (app (run' w [TypeGroupName name; PickColor color]))
      = DuplicateNameError
      /\ created (handleCreateGroup now
                   (app (run' w [TypeGroupName name; PickColor color]))) = None
      /\ listGroups (createGroup' name color now w) = listGroups w
      /\ notes (app (createGroup' name color now w)) = notes (app w)
      /\ localStorage (createGroup' name color now w) = localStorage w
      /\ trace (createGroup' name color now w)
         = trace w ++ [alerted (str "Group name already exists!")])
  /\ (forall name color color2 now now2,
        trim name <> [] ->
        trim (toUpperCase name) <> [] ->
        ci_equal (trim (toUpperCase name)) (trim name) ->
        let w1 := createGroup' name color now w in
        handleCreateGroup now2
          (app (run' w1 [TypeGroupName (toUpperCase name); PickColor color2]))
        = DuplicateNameError
        /\ listGroups (createGroup' (toUpperCase name) color2 now2 w1) = listGroups w1
        /\ localStorage (createGroup' (toUpperCase name) color2 now2 w1)
           = localStorage w1)
  /\ (forall name,
        ascii_only name -> trim name <> [] ->
        trim (toUpperCase name) <> []
        /\ ci_equal (trim (toUpperCase name)) (trim name)).
Proof.
  assert (Hdup : forall w name color now,
    trim name <> [] ->
    Exists (fun g => ci_equal (Group.name g) (trim name)) (listGroups w) ->
    handleCreateGroup now (app (run' w [TypeGroupName name; PickColor color]))
    = DuplicateNameError
    /\ createGroup' name color now w
       = {| app := mkApp (groups (app w)) (notes (app w)) (selectedGroupId (app w))
                     (isModalOpen (app w)) name color (noteText (app w));
            localStorage := localStorage w;
            trace := trace w ++ [alerted (str "Group name already exists!")] |}).
  { intros w0 name color now H He. apply nameTaken_Exists in He. split.
    - rewrite group_form. now apply handleCreateGroup_taken.
    - now apply createGroup_taken. }
  split; [|split].
  - intros name color now H He.
    destruct (Hdup w name color now H He) as [Hh Hw].
    split; [exact Hh|]. split; [now rewrite Hh|].
    unfold listGroups. rewrite Hw. cbn. auto.
  - intros name color color2 now now2 H Hu Hc w1.
    assert (He : Exists (fun g => ci_equal (Group.name g) (trim (toUpperCase name)))
                   (listGroups w1)).
    { eapply Exists_impl; [apply createGroup_name_present, H|].
      intros g Hg. unfold ci_equal in *. now rewrite Hg. }
    destruct (Hdup w1 (toUpperCase name) color2 now2 Hu He) as [Hh Hw].
    split; [exact Hh|]. unfold listGroups. rewrite Hw. cbn. auto.
  - intros name Ha H. split.
    + now apply trim_toUpperCase_nonempty.
    + now apply ci_equal_upper_ascii.
Qed.

(** C3.  A name that is not blank and not taken: [createGroup] builds one
    record, with the trimmed name, the chosen colour, the initials of the
    name and the identifier read from the clock, and appends it to the end
    of the group collection; the groups before it stay as they were and in
    their order.  This record is the one [handleCreateGroup] has created;
    it is equal to no earlier one, so it is in the collection once, as its
    last entry; the effect of line 59 stores the new collection. *)
Theorem createGroup_appends (name color : jsstring) (now : N) (w : World) :
  trim name <> [] ->
  ~ Exists (fun g => ci_equal (Group.name g) (trim name)) (listGroups w) ->
  let g := {| Group.id := newId now; Group.name := trim name;
              Group.color := color; Group.initials := getInitials name |} in
  handleCreateGroup now (app (run' w [TypeGroupName name; PickColor color]))
  = [setGroups (listGroups w ++ [g]); setIsModalOpen false; setGroupName [];
     setSelectedColor GROUP_COLORS_0]
  /\ created (handleCreateGroup now
               (app (run' w [TypeGroupName name; PickColor color]))) = Some g
  /\ listGroups (createGroup' name color now w) = listGroups w ++ [g]
  /\ (g ∉ listGroups w)
  /\ filter (fun x => x = g) (listGroups (createGroup' name color now w)) = [g]
  /\ last (listGroups (createGroup' name color now w)) = Some g
  /\ notes (app (createGroup' name color now w)) = notes (app w)
  /\ localStorage (createGroup' name color now w) !! pocketGroups
     = Some (JSON_stringify (json_of_groups (listGroups w ++ [g]))).
Proof.
  intros H Hn g.
  assert (Ht : nameTaken (groups (app w)) name = false).
  { apply not_true_iff_false. now rewrite nameTaken_Exists. }
  assert (Hh : handleCreateGroup now
                 (app (run' w [TypeGroupName name; PickColor color]))
               = [setGroups (listGroups w ++ [g]); setIsModalOpen false;
                  setGroupName []; setSelectedColor GROUP_COLORS_0]).
  { rewrite group_form. now apply handleCreateGroup_fresh. }
  assert (Hnew : g ∉ listGroups w).
  { intros Hin. apply Hn. apply Exists_exists. exists g. split; [exact Hin|].
    reflexivity. }
  split; [exact Hh|]. split; [|split; [|split; [|split; [|split; [|split]]]]].
  - rewrite Hh. cbn. apply last_snoc.
  - unfold listGroups. now rewrite createGroup_fresh by assumption.
  - exact Hnew.
  - unfold listGroups. rewrite createGroup_fresh by assumption. cbn.
    rewrite filter_app, filter_cons_True, filter_nil by reflexivity.
    replace (filter (fun x => x = g) (groups (app w))) with (@nil Group.t);
      [reflexivity|].
    symmetry. apply filter_not_elem_of. exact Hnew.
  - unfold listGroups. rewrite createGroup_fresh by assumption. cbn.
    apply last_snoc.
  - now rewrite createGroup_fresh by assumption.
  - rewrite createGroup_fresh by assumption. cbn. apply lookup_insert_eq.
Qed.

(** ** Initials *)

Lemma split_go_word (cur w rest : jsstring) :
  is_word w -> split_go false cur (w ++ rest) = split_go false (cur ++ w) rest.
Proof.
  intros H. revert cur. induction H as [|c r Hc _ IH]; intros cur; simpl.
  - now rewrite app_nil_r.
  - rewrite Hc, IH, <- app_assoc. reflexivity.
Qed.

Lemma split_go_skip (sep rest : jsstring) :
  whitespace_only sep -> split_go true [] (sep ++ rest) = split_go true [] rest.
Proof.
  induction 1 as [|c r Hc _ IH]; simpl; [reflexivity|]. now rewrite Hc.
Qed.

Lemma split_go_sep (cur sep rest : jsstring) :
  sep <> [] -> whitespace_only sep ->
  split_go false cur (sep ++ rest) = cur :: split_go true [] rest.
Proof.
  intros Hne H. destruct H as [|c r Hc Hr]; [congruence|]. simpl.
  rewrite Hc. f_equal. now apply split_go_skip.
Qed.

Lemma split_go_enter (w rest : jsstring) :
  w <> [] -> is_word w -> split_go true [] (w ++ rest) = split_go false w rest.
Proof.
  intros Hne H. destruct H as [|c r Hc Hr]; [congruence|]. simpl.
  rewrite Hc. now rewrite (split_go_word [c] r rest Hr).
Qed.

Lemma split_ws_one_word (t : jsstring) : is_word t -> split_ws t = [t].
Proof.
  intros H. unfold split_ws. rewrite <- (app_nil_r t) at 1.
  now rewrite (split_go_word [] t [] H).
Qed.

Lemma split_ws_two_words (t w1 w2 : jsstring) :
  first_two_words t w1 w2 -> exists more, split_ws t = w1 :: w2 :: more.
Proof.
  intros (sep & rest & -> & _ & Hw1 & Hs & Hsep & Hn2 & Hw2 & Hrest).
  unfold split_ws.
  rewrite (split_go_word [] w1 _ Hw1), (split_go_sep _ sep _ Hs Hsep),
    (split_go_enter w2 rest Hn2 Hw2). cbn [app].
  destruct Hrest as [-> | (c & r & -> & Hc)].
  - now exists [].
  - simpl. rewrite Hc. now exists (split_go true [] r).
Qed.

(** The longest word at the start of a string. *)
Lemma word_prefix (s : jsstring) :
  exists w r, s = w ++ r /\ is_word w
              /\ (r = [] \/ exists c r', r = c :: r' /\ is_ws c = true).
Proof.
  induction s as [|c s (w & r & -> & Hw & Hr)].
  - exists [], []. repeat split; [constructor | now left].
  - destruct (is_ws c) eqn:Hc.
    + exists [], (c :: w ++ r). repeat split; [constructor|]. right. now exists c, (w ++ r).
    + exists (c :: w), r. repeat split; [now constructor | exact Hr].
Qed.

Lemma trimStart_snoc (a : jsstring) (c : N) :
  is_ws c = false -> trimStart (a ++ [c]) = trimStart a ++ [c].
Proof.
  intros Hc. induction a as [|x a IH]; simpl; [now rewrite Hc|].
  destruct (is_ws x); [exact IH | reflexivity].
Qed.

(** A trimmed string that is not empty starts and ends with a code unit that
    is not white space. *)
Lemma trim_ends (s : jsstring) :
  trim s <> [] ->
  (exists c r, trim s = c :: r /\ is_ws c = false)
  /\ (exists a z, trim s = a ++ [z] /\ is_ws z = false).
Proof.
  unfold trim, trimEnd. intros Hne.
  destruct (trimStart_split s) as (_ & _ & _ & [Ht | (c & r & Ht & Hc)]).
  { rewrite Ht in Hne. now contradiction Hne. }
  rewrite Ht in *. split.
  - exists c. simpl. rewrite (trimStart_snoc _ c Hc), rev_app_distr. simpl. eauto.
  - destruct (trimStart_split (rev (c :: r))) as (_ & _ & _ & [Hu | (z & u & Hu & Hz)]).
    + rewrite Hu in Hne. now contradiction Hne.
    + rewrite Hu. simpl. eauto.
Qed.

Lemma whitespace_only_last (sep : jsstring) (z : N) :
  whitespace_only sep -> last sep = Some z -> is_ws z = true.
Proof.
  intros H Hl. apply last_Some_elem_of in Hl.
  eapply Forall_forall in H; [exact H | exact Hl].
Qed.

(** A trimmed, non-empty string is one word or begins with two. *)
Lemma words_cover (t : jsstring) :
  (exists c r, t = c :: r /\ is_ws c = false) ->
  (exists a z, t = a ++ [z] /\ is_ws z = false) ->
  is_word t \/ exists w1 w2, first_two_words t w1 w2.
Proof.
  intros (c & r & Ht & Hc) (a & z & Hz & Hzw).
  destruct (word_prefix t) as (w1 & r1 & Ht1 & Hw1 & Hr1).
  assert (Hn1 : w1 <> []).
  { intros ->. destruct Hr1 as [-> | (c' & r' & -> & Hc')]; simpl in Ht1; subst t;
      [discriminate | congruence]. }
  destruct Hr1 as [-> | (c1 & r1' & -> & Hc1)].
  { left. rewrite Ht1, app_nil_r. exact Hw1. }
  right.
  destruct (trimStart_split (c1 :: r1')) as (sep & Hsep & Hr2 & Hhd).
  set (r2 := trimStart (c1 :: r1')) in *.
  assert (Hns : sep <> []).
  { intros ->. simpl in Hr2.
    destruct Hhd as [Hnil | (x & y & Hx & Hxw)]; [congruence|].
    rewrite <- Hr2 in Hx. congruence. }
  assert (Hn2 : r2 <> []).
  { intros Hnil. rewrite Hnil, app_nil_r in Hr2. rewrite Hr2 in Ht1.
    assert (Hl : last t = Some z) by (rewrite Hz; apply last_snoc).
    rewrite Ht1, last_app in Hl.
    destruct (last sep) as [y|] eqn:Hy.
    - rewrite (whitespace_only_last sep z Hsep) in Hzw; [discriminate | congruence].
    - apply last_None in Hy. contradiction. }
  destruct (word_prefix r2) as (w2 & rest & Hr2' & Hw2 & Hrest).
  assert (Hnw2 : w2 <> []).
  { intros ->. simpl in Hr2'.
    destruct Hhd as [Hnil | (x & y & Hx & Hxw)]; [contradiction|].
    destruct Hrest as [-> | (c' & r' & -> & Hc')]; congruence. }
  exists w1, w2, sep, rest. repeat split; try assumption.
  rewrite Ht1, Hr2, Hr2'. reflexivity.
Qed.

(** The two cases of [getInitials]. *)
Lemma getInitials_words (name : jsstring) :
  trim name <> [] ->
  (is_word (trim name) \/ exists w1 w2, first_two_words (trim name) w1 w2)
  /\ (forall c w, trim name = c :: w -> is_word (c :: w) ->
                  getInitials name = toUpperCase [c]
                  /\ (c < 128 -> getInitials name = [ascii_up c]))
  /\ (forall c1 w1 c2 w2,
         first_two_words (trim name) (c1 :: w1) (c2 :: w2) ->
         getInitials name = toUpperCase [c1; c2]
         /\ (c1 < 128 -> c2 < 128 ->
             getInitials name = [ascii_up c1; ascii_up c2])).
Proof.
  intros H.
  assert (Hg : getInitials name
               = match split_ws (trim name) with
                 | [w] => toUpperCase (charAt0 w)
                 | w0 :: w1 :: _ => toUpperCase (charAt0 w0 ++ charAt0 w1)
                 | [] => []
                 end).
  { destruct name; [now contradiction H | reflexivity]. }
  split; [|split].
  - destruct (trim_ends name H) as [Hs He]. now apply words_cover.
  - intros c w Ht Hw.
    assert (Hi : getInitials name = toUpperCase [c]).
    { rewrite Hg, Ht, (split_ws_one_word _ Hw). reflexivity. }
    split; [exact Hi|]. intros Hc. rewrite Hi.
    apply (toUpperCase_ascii [c]). now repeat constructor.
  - intros c1 w1 c2 w2 Hw.
    assert (Hi : getInitials name = toUpperCase [c1; c2]).
    { rewrite Hg. destruct (split_ws_two_words _ _ _ Hw) as [more ->]. reflexivity. }
    split; [exact Hi|]. intros Hc1 Hc2. rewrite Hi.
    apply (toUpperCase_ascii [c1; c2]). now repeat constructor.
Qed.


(** ** The fuel of the parser

    A parse that succeeds consumes input, so the recursive calls of the
    parser are on ever shorter inputs, and the result of [parse_value] no
    longer depends on the fuel once the fuel exceeds the length of the input:
    [JSON_parse] never fails for lack of fuel. *)

Lemma skip_ws_length (s : jsstring) : (length (skip_ws s) <= length s)%nat.
Proof.
  induction s as [|c r IH]; simpl; [lia|].
  destruct (is_json_ws c); simpl; lia.
Qed.

Lemma take_digits_length (s ds r : jsstring) :
  take_digits s = (ds, r) -> (length r <= length s)%nat.
Proof.
  revert ds r. induction s as [|c s IH]; simpl; intros ds r H.
  - injection H as <- <-. simpl. lia.
  - destruct (is_digit c).
    + destruct (take_digits s) as [ds' r'] eqn:Ht. injection H as <- <-.
      specialize (IH _ _ eq_refl). lia.
    + injection H as <- <-. simpl. lia.
Qed.

Lemma parse_number_length (s lit r : jsstring) :
  parse_number s = Some (lit, r) -> (length r < length s)%nat.
Proof.
  unfold parse_number, parse_int, parse_frac, parse_exp. intros H.
  repeat (case_match; simplify_eq);
    repeat match goal with
      | Ht : take_digits _ = _ |- _ => apply take_digits_length in Ht
      end;
    simpl in *; lia.
Qed.

Lemma strip_prefix_length (p s r : jsstring) :
  strip_prefix p s = Some r -> (length r <= length s)%nat.
Proof.
  revert s. induction p as [|a p IH]; intros s H; simpl in H.
  - injection H as <-. lia.
  - destruct s as [|b s]; [discriminate|].
    destruct (a =? b); [|discriminate]. apply IH in H. simpl. lia.
Qed.

Lemma parse_chars_length_bounded (n : nat) :
  forall s x r, (length s <= n)%nat -> parse_chars s = Some (x, r) ->
                (length r < length s)%nat.
Proof.
  induction n as [|n IH]; intros s x r Hn H.
  { destruct s; [discriminate | simpl in Hn; lia]. }
  destruct s as [|c s]; [discriminate|]. simpl in Hn. cbn [parse_chars] in H.
  repeat (case_match; simplify_eq); simpl in *;
    repeat match goal with
      | E : parse_chars ?t = Some _ |- _ => apply IH in E; [|simpl; lia]
      end;
    simpl in *; lia.
Qed.

Lemma parse_chars_length (s x r : jsstring) :
  parse_chars s = Some (x, r) -> (length r < length s)%nat.
Proof. now apply (parse_chars_length_bounded (length s)). Qed.

Ltac note H :=
  let T := type of H in
  lazymatch goal with
  | _ : T |- _ => fail
  | _ => pose proof H
  end.

Ltac open_matches H :=
  repeat match type of H with
    | context [match ?x with _ => _ end] => destruct x eqn:?; try discriminate H
    end.

Ltac length_facts IHv IHt IHm :=
  repeat match goal with
    | E : parse_chars _ = Some _ |- _ => note (parse_chars_length _ _ _ E)
    | E : parse_number _ = Some _ |- _ => note (parse_number_length _ _ _ E)
    | E : strip_prefix _ _ = Some _ |- _ => note (strip_prefix_length _ _ _ E)
    | E : skip_ws ?s = ?t |- _ =>
        note (eq_ind (skip_ws s) (fun u => (length u <= length s)%nat)
                (skip_ws_length s) t E)
    | E : parse_value _ _ = Some _ |- _ => note (IHv _ _ _ E)
    | E : parse_tail _ _ = Some _ |- _ => note (IHt _ _ _ E)
    | E : parse_members _ _ _ = Some _ |- _ => note (IHm _ _ _ _ E)
    | |- context [skip_ws ?s] => note (skip_ws_length s)
    | _ : context [skip_ws ?s] |- _ => note (skip_ws_length s)
    end.

(** Every successful parse consumes input. *)
Lemma parse_consumes (f : nat) :
  (forall s v r, parse_value f s = Some (v, r) -> (length r < length s)%nat)
  /\ (forall s vs r, parse_tail f s = Some (vs, r) -> (length r < length s)%nat)
  /\ (forall acc s ms r, parse_members f acc s = Some (ms, r) ->
                         (length r < length s)%nat).
Proof.
  induction f as [|f (IHv & IHt & IHm)]; [repeat split; discriminate|].
  split; [|split].
  - intros s v r H. cbn [parse_value] in H. open_matches H; simplify_eq;
      length_facts IHv IHt IHm; simpl in *; lia.
  - intros s vs r H. cbn [parse_tail] in H. open_matches H; simplify_eq;
      length_facts IHv IHt IHm; simpl in *; lia.
  - intros acc s ms r H. cbn [parse_members] in H. open_matches H; simplify_eq;
      length_facts IHv IHt IHm; simpl in *; lia.
Qed.

Ltac refuel IHv IHt IHm f' :=
  repeat (match goal with
          | E : parse_value _ ?x = Some ?y |- _ =>
              rewrite (IHv x y f' E) by (simpl in *; lia)
          | E : parse_tail _ ?x = Some ?y |- _ =>
              rewrite (IHt x y f' E) by (simpl in *; lia)
          | E : parse_members _ ?a ?x = Some ?y |- _ =>
              rewrite (IHm a x y f' E) by (simpl in *; lia)
          | E : skip_ws _ = _ |- _ => rewrite E
          | E : parse_chars _ = _ |- _ => rewrite E
          | E : N.eqb _ _ = _ |- _ => rewrite E
          end; cbv beta iota).

(** A parse that succeeds with some fuel succeeds, with the same result, with
    any fuel above the length of the input. *)
Lemma parse_fuel (f : nat) :
  (forall s res f', parse_value f s = Some res -> (length s < f')%nat ->
                    parse_value f' s = Some res)
  /\ (forall s res f', parse_tail f s = Some res -> (length s < f')%nat ->
                       parse_tail f' s = Some res)
  /\ (forall acc s res f', parse_members f acc s = Some res -> (length s < f')%nat ->
                           parse_members f' acc s = Some res).
Proof.
  induction f as [|f (IHv & IHt & IHm)]; [repeat split; discriminate|].
  destruct (parse_consumes f) as (Cv & Ct & Cm).
  split; [|split].
  - intros s res f' H Hlen. destruct f' as [|f']; [simpl in Hlen; lia|].
    cbn [parse_value] in H |- *.
    open_matches H; simplify_eq; length_facts Cv Ct Cm; refuel IHv IHt IHm f';
      reflexivity.
  - intros s res f' H Hlen. destruct f' as [|f']; [simpl in Hlen; lia|].
    cbn [parse_tail] in H |- *.
    open_matches H; simplify_eq; length_facts Cv Ct Cm; refuel IHv IHt IHm f';
      reflexivity.
  - intros acc s res f' H Hlen. destruct f' as [|f']; [simpl in Hlen; lia|].
    cbn [parse_members] in H |- *.
    open_matches H; simplify_eq; length_facts Cv Ct Cm; refuel IHv IHt IHm f';
      reflexivity.
Qed.

Lemma JSON_parse_fuel (text : jsstring) (f : nat) (v : json) (r : jsstring) :
  parse_value f (skip_ws text) = Some (v, r) ->
  JSON_parse text = if falsy (skip_ws r) then Some v else None.
Proof.
  intros H. unfold JSON_parse.
  rewrite (proj1 (parse_fuel f) _ _ (S (length text)) H); [reflexivity|].
  pose proof (skip_ws_length text). lia.
Qed.

(** ** Strings through [JSON.stringify] and [JSON.parse] *)

Lemma hexval_hexdigit (d : N) : d < 16 -> hexval (hexdigit d) = Some d.
Proof.
  intros H. unfold hexdigit.
  destruct (N.ltb_spec d 10); unfold hexval; case_tests; f_equal; lia.
Qed.

Lemma hex4_digits (c : N) :
  c < 65536 ->
  hex4 (hexdigit (c / 4096 mod 16)) (hexdigit (c / 256 mod 16))
    (hexdigit (c / 16 mod 16)) (hexdigit (c mod 16)) = Some c.
Proof.
  intros H. unfold hex4.
  rewrite !hexval_hexdigit by (apply N.mod_lt; lia). f_equal.
  replace (c / 4096) with (c / 16 / 16 / 16) by (now rewrite !N.Div0.div_div).
  replace (c / 256) with (c / 16 / 16) by (now rewrite !N.Div0.div_div).
  assert (c / 16 / 16 / 16 / 16 = 0)
    by (rewrite !N.Div0.div_div; now apply N.div_small).
  pose proof (N.div_mod c 16 ltac:(lia)).
  pose proof (N.div_mod (c / 16) 16 ltac:(lia)).
  pose proof (N.div_mod (c / 16 / 16) 16 ltac:(lia)).
  pose proof (N.div_mod (c / 16 / 16 / 16) 16 ltac:(lia)).
  lia.
Qed.

Lemma parse_chars_u (h1 h2 h3 h4 u : N) (r : jsstring) :
  hex4 h1 h2 h3 h4 = Some u ->
  parse_chars (92 :: 117 :: h1 :: h2 :: h3 :: h4 :: r) = parse_chars_after u r.
Proof. intros H. unfold parse_chars_after. simpl. now rewrite H. Qed.

Lemma parse_chars_unicodeEscape (c : N) (r : jsstring) :
  c < 65536 -> parse_chars (unicodeEscape c ++ r) = parse_chars_after c r.
Proof. intros H. apply parse_chars_u, hex4_digits, H. Qed.

Lemma parse_chars_literal (c : N) (r : jsstring) :
  c <> 34 -> c <> 92 -> 32 <= c -> parse_chars (c :: r) = parse_chars_after c r.
Proof.
  intros H1 H2 H3. unfold parse_chars_after. cbn [parse_chars].
  destruct (N.eqb_spec c 34); [contradiction|].
  destruct (N.eqb_spec c 92); [contradiction|].
  destruct (N.ltb_spec c 32); [lia | reflexivity].
Qed.

Lemma is_high_range (c : N) : is_high c = true -> 55296 <= c <= 56319.
Proof. unfold is_high. rewrite andb_true_iff, !N.leb_le. tauto. Qed.

Lemma is_low_range (c : N) : is_low c = true -> 56320 <= c <= 57343.
Proof. unfold is_low. rewrite andb_true_iff, !N.leb_le. tauto. Qed.

Lemma parse_chars_quote_unit (c : N) (r : jsstring) :
  is_high c = false -> parse_chars (quote_unit c ++ r) = parse_chars_after c r.
Proof.
  intros Hh. unfold quote_unit.
  repeat match goal with
    | |- context [if N.eqb c ?k then _ else _] =>
        destruct (N.eqb_spec c k); [subst c; reflexivity|]
    end.
  destruct (N.ltb_spec c 32) as [Hlt | Hge]; cbn [orb].
  - apply parse_chars_unicodeEscape. lia.
  - rewrite Hh. cbn [orb]. destruct (is_low c) eqn:Hl.
    + apply parse_chars_unicodeEscape. apply is_low_range in Hl. lia.
    + now apply parse_chars_literal.
Qed.

Lemma parse_chars_quote_body_bounded (n : nat) :
  forall s rest, (length s <= n)%nat ->
                 parse_chars (quote_body s ++ 34 :: rest) = Some (s, rest).
Proof.
  induction n as [|n IH]; intros s rest Hlen.
  { destruct s; [reflexivity | simpl in Hlen; lia]. }
  destruct s as [|c r]; [reflexivity|]. simpl in Hlen. cbn [quote_body].
  destruct (is_high c) eqn:Hh.
  - pose proof (is_high_range c Hh) as Hc.
    destruct r as [|d r'].
    + rewrite parse_chars_unicodeEscape by lia. reflexivity.
    + destruct (is_low d) eqn:Hl.
      * pose proof (is_low_range d Hl) as Hd. simpl in Hlen.
        change ((c :: d :: quote_body r') ++ 34 :: rest)
          with (c :: d :: (quote_body r' ++ 34 :: rest)).
        rewrite parse_chars_literal by lia. unfold parse_chars_after.
        rewrite parse_chars_literal by lia. unfold parse_chars_after.
        rewrite IH by lia. reflexivity.
      * rewrite <- app_assoc, parse_chars_unicodeEscape by lia.
        unfold parse_chars_after. rewrite IH by lia. reflexivity.
  - rewrite <- app_assoc, parse_chars_quote_unit by exact Hh.
    unfold parse_chars_after. rewrite IH by lia. reflexivity.
Qed.

(** A quoted string parses back to the string. *)
Lemma parse_chars_quote_body (s rest : jsstring) :
  parse_chars (quote_body s ++ 34 :: rest) = Some (s, rest).
Proof. now apply (parse_chars_quote_body_bounded (length s)). Qed.

(** ** Records through [JSON.stringify] and [JSON.parse]

    The fuel argument of the parser is discharged by the invariant that it
    exceeds the length of the input, which every recursive call keeps. *)

Ltac lengths :=
  repeat rewrite ?length_app, ?length_cons in *; simpl length in *; lia.

Lemma skip_ws_head (c : N) (r : jsstring) :
  is_json_ws c = false -> skip_ws (c :: r) = c :: r.
Proof. intros H. simpl. now rewrite H. Qed.

Lemma scalar_text_head (v : json) :
  is_scalar v -> exists c tl, JSON_stringify v = c :: tl /\ is_json_ws c = false.
Proof.
  destruct v; simpl; try contradiction; intros _.
  - now exists 110, (str "ull").
  - exists 34, (quote_body s ++ [34]). now split.
Qed.

Lemma parse_value_scalar (v : json) (rest : jsstring) (fuel : nat) :
  is_scalar v -> Nat.lt (length (JSON_stringify v ++ rest)) fuel ->
  parse_value fuel (JSON_stringify v ++ rest) = Some (v, rest).
Proof.
  intros Hv Hlen. destruct fuel as [|f]; [lia|].
  destruct v; simpl in Hv; try contradiction.
  - reflexivity.
  - change (JSON_stringify (JStr s) ++ rest)
      with (34 :: ((quote_body s ++ [34]) ++ rest)).
    rewrite <- app_assoc. cbn [parse_value]. change (34 =? 34) with true. cbv iota.
    change ([34] ++ rest) with (34 :: rest).
    now rewrite parse_chars_quote_body.
Qed.

Lemma member_text_eq (k : jsstring) (v : json) (tail : jsstring) :
  member_text (k, v) ++ tail
  = 34 :: (quote_body k ++ 34 :: 58 :: (JSON_stringify v ++ tail)).
Proof.
  unfold member_text, quote. cbn [fst snd]. rewrite <- !app_assoc. reflexivity.
Qed.

(** One property, read by [parse_members]: the value, then what the next
    code unit decides. *)
Lemma parse_members_value (f : nat) (acc : list (jsstring * json)) (k : jsstring)
  (v : json) (tail : jsstring) :
  is_scalar v -> Nat.lt (length (JSON_stringify v ++ tail)) f ->
  parse_members (S f) acc (member_text (k, v) ++ tail)
  = match skip_ws tail with
    | [] => None
    | d :: r4 =>
        if d =? 125 then Some (obj_set acc k v, r4)
        else if d =? 44 then parse_members f (obj_set acc k v) (skip_ws r4)
        else None
    end.
Proof.
  intros Hv Hlen. rewrite member_text_eq. cbn [parse_members].
  change (34 =? 34) with true. cbv iota.
  rewrite parse_chars_quote_body.
  rewrite (skip_ws_head 58) by reflexivity.
  change (58 =? 58) with true. cbv iota.
  destruct (scalar_text_head v Hv) as (c & tl & Hc & Hws).
  replace (skip_ws (JSON_stringify v ++ tail)) with (JSON_stringify v ++ tail)
    by (rewrite Hc; symmetry; now apply skip_ws_head).
  now rewrite (parse_value_scalar v tail f Hv Hlen).
Qed.

Lemma member_text_head (m : jsstring * json) (tail : jsstring) :
  exists tl, member_text m ++ tail = 34 :: tl.
Proof. destruct m as [k v]. rewrite member_text_eq. eauto. Qed.

Lemma commas_head (ms : list (jsstring * json)) (tail : jsstring) :
  ms <> [] -> exists tl, commas (map member_text ms) ++ tail = 34 :: tl.
Proof.
  destruct ms as [|m [|m' ms]]; [congruence | |]; intros _; cbn [map commas].
  - apply member_text_head.
  - rewrite <- app_assoc. apply member_text_head.
Qed.

Lemma parse_members_scalars (ms : list (jsstring * json)) :
  forall acc rest fuel,
    ms <> [] -> Forall (fun m => is_scalar (snd m)) ms ->
    Nat.lt (length (commas (map member_text ms) ++ 125 :: rest)) fuel ->
    parse_members fuel acc (commas (map member_text ms) ++ 125 :: rest)
    = Some (set_all acc ms, rest).
Proof.
  induction ms as [|[k v] ms IH]; intros acc rest fuel Hne Hs Hlen; [congruence|].
  apply Forall_cons in Hs as [Hv Hs]. cbn [snd] in Hv.
  destruct fuel as [|f]; [lia|].
  destruct ms as [|m' ms].
  - cbn [map commas] in *. rewrite member_text_eq in Hlen.
    rewrite parse_members_value by (assumption || lengths).
    reflexivity.
  - change (commas (map member_text ((k, v) :: m' :: ms)))
      with (member_text (k, v) ++ 44 :: commas (map member_text (m' :: ms))) in *.
    rewrite <- !app_assoc in *. rewrite <- !app_comm_cons in *.
    rewrite member_text_eq in Hlen.
    rewrite parse_members_value by (assumption || lengths).
    rewrite (skip_ws_head 44) by reflexivity.
    change (44 =? 125) with false. change (44 =? 44) with true. cbv iota.
    destruct (commas_head (m' :: ms) (125 :: rest)) as [tl Htl]; [discriminate|].
    rewrite Htl in *. rewrite (skip_ws_head 34) by reflexivity. rewrite <- Htl in *.
    apply (IH (obj_set acc k v) rest f); [discriminate | assumption | lengths].
Qed.

Lemma record_text (ms : list (jsstring * json)) (rest : jsstring) :
  JSON_stringify (JObj ms) ++ rest
  = 123 :: (commas (map member_text ms) ++ 125 :: rest).
Proof.
  change (JSON_stringify (JObj ms))
    with ([123] ++ commas (map member_text ms) ++ [125]).
  rewrite <- !app_assoc. reflexivity.
Qed.

Lemma parse_value_record (v : json) (rest : jsstring) (fuel : nat) :
  is_record v -> Nat.lt (length (JSON_stringify v ++ rest)) fuel ->
  parse_value fuel (JSON_stringify v ++ rest) = Some (v, rest).
Proof.
  destruct v as [| | | | |ms]; try contradiction.
  intros (Hne & Hs & Hset) Hlen. rewrite record_text in *.
  destruct fuel as [|f]; [lia|].
  destruct (commas_head ms (125 :: rest) Hne) as [tl Htl].
  cbn [parse_value]. change (123 =? 34) with false. change (123 =? 91) with false.
  change (123 =? 123) with true. cbv iota.
  rewrite Htl, (skip_ws_head 34) by reflexivity.
  change (34 =? 125) with false. cbv iota. rewrite <- Htl.
  rewrite parse_members_scalars by (assumption || lengths).
  now rewrite Hset.
Qed.

Lemma record_text_head (v : json) (rest : jsstring) :
  is_record v -> exists tl, JSON_stringify v ++ rest = 123 :: tl.
Proof.
  destruct v; try contradiction. intros _. rewrite record_text. eauto.
Qed.

Lemma commas_tail_text (v : json) (vs : list json) :
  commas (map JSON_stringify (v :: vs)) = JSON_stringify v ++ tail_text vs.
Proof.
  revert v. induction vs as [|v' vs IH]; intros v.
  - cbn. now rewrite app_nil_r.
  - change (commas (map JSON_stringify (v :: v' :: vs)))
      with (JSON_stringify v ++ 44 :: commas (map JSON_stringify (v' :: vs))).
    rewrite IH. unfold tail_text. cbn [map concat].
    now rewrite <- app_comm_cons.
Qed.

Lemma parse_tail_records (vs : list json) :
  forall rest fuel,
    Forall is_record vs ->
    Nat.lt (length (tail_text vs ++ 93 :: rest)) fuel ->
    parse_tail fuel (tail_text vs ++ 93 :: rest) = Some (vs, rest).
Proof.
  induction vs as [|v vs IH]; intros rest fuel Hr Hlen;
    (destruct fuel as [|f]; [lia|]).
  - reflexivity.
  - apply Forall_cons in Hr as [Hv Hr].
    change (tail_text (v :: vs)) with ((44 :: JSON_stringify v) ++ tail_text vs) in *.
    repeat (rewrite <- app_comm_cons in * || rewrite <- app_assoc in * ).
    cbn [parse_tail]. rewrite (skip_ws_head 44) by reflexivity.
    change (44 =? 93) with false. change (44 =? 44) with true. cbv iota.
    destruct (record_text_head v (tail_text vs ++ 93 :: rest) Hv) as [tl Htl].
    replace (skip_ws (JSON_stringify v ++ tail_text vs ++ 93 :: rest))
      with (JSON_stringify v ++ tail_text vs ++ 93 :: rest)
      by (rewrite Htl; symmetry; now apply skip_ws_head).
    rewrite parse_value_record by (assumption || lengths).
    rewrite IH by (assumption || lengths). reflexivity.
Qed.

Lemma parse_value_records (vs : list json) (rest : jsstring) (fuel : nat) :
  Forall is_record vs ->
  Nat.lt (length (JSON_stringify (JArr vs) ++ rest)) fuel ->
  parse_value fuel (JSON_stringify (JArr vs) ++ rest) = Some (JArr vs, rest).
Proof.
  intros Hr Hlen. destruct fuel as [|f]; [lia|].
  destruct vs as [|v vs]; [reflexivity|].
  apply Forall_cons in Hr as [Hv Hr].
  change (JSON_stringify (JArr (v :: vs)))
    with ([91] ++ commas (map JSON_stringify (v :: vs)) ++ [93]) in *.
  rewrite commas_tail_text in *. rewrite <- !app_assoc in *.
  change ([91] ++ JSON_stringify v ++ tail_text vs ++ [93] ++ rest)
    with (91 :: (JSON_stringify v ++ tail_text vs ++ 93 :: rest)) in *.
  destruct (record_text_head v (tail_text vs ++ 93 :: rest) Hv) as [tl Htl].
  cbn [parse_value]. change (91 =? 34) with false. change (91 =? 91) with true.
  cbv iota. rewrite Htl, (skip_ws_head 123) by reflexivity.
  change (123 =? 93) with false. cbv iota. rewrite <- Htl.
  rewrite parse_value_record by (assumption || lengths).
  rewrite parse_tail_records by (assumption || lengths). reflexivity.
Qed.

(** [JSON.parse (JSON.stringify a) = a] for an array of records. *)
Lemma JSON_parse_stringify_records (vs : list json) :
  Forall is_record vs -> JSON_parse (JSON_stringify (JArr vs)) = Some (JArr vs).
Proof.
  intros Hr. unfold JSON_parse.
  assert (Hh : skip_ws (JSON_stringify (JArr vs)) = JSON_stringify (JArr vs)).
  { now apply skip_ws_head. }
  rewrite Hh. rewrite <- (app_nil_r (JSON_stringify (JArr vs))) at 2.
  rewrite parse_value_records; [reflexivity | exact Hr |].
  rewrite app_nil_r. apply Nat.lt_succ_diag_r.
Qed.

Lemma json_of_group_record (g : Group.t) : is_record (json_of_group g).
Proof.
  split; [discriminate|]. split; [|reflexivity].
  repeat constructor.
Qed.

Lemma json_of_note_record (n : Note.t) : is_record (json_of_note n).
Proof.
  split; [discriminate|]. split; [|reflexivity].
  repeat constructor. cbn. now destruct (Note.groupId n).
Qed.

Lemma group_of_json_of_group (g : Group.t) : group_of_json (json_of_group g) = Some g.
Proof. now destruct g. Qed.

Lemma note_of_json_of_note (n : Note.t) : note_of_json (json_of_note n) = Some n.
Proof. destruct n as [i [g|] c d t]; reflexivity. Qed.

Lemma mapM_map_Some {A B : Type} (f : A -> option B) (g : B -> A) (l : list B) :
  (forall x, f (g x) = Some x) -> mapM f (map g l) = Some l.
Proof.
  intros H. induction l as [|x l IH]; [reflexivity|].
  cbn. rewrite H. cbn. rewrite IH. reflexivity.
Qed.

(** What [JSON.parse] makes of the stored text of a collection, and what the
    component then holds. *)
Lemma groups_roundtrip (gs : list Group.t) :
  JSON_parse (JSON_stringify (json_of_groups gs)) = Some (json_of_groups gs)
  /\ groups_of_json (json_of_groups gs) = Some gs.
Proof.
  split.
  - apply JSON_parse_stringify_records. unfold json_of_groups.
    apply Forall_forall. intros v Hv. apply list_elem_of_In, in_map_iff in Hv.
    destruct Hv as (g & <- & _). apply json_of_group_record.
  - apply mapM_map_Some, group_of_json_of_group.
Qed.

Lemma notes_roundtrip (ns : list Note.t) :
  JSON_parse (JSON_stringify (json_of_notes ns)) = Some (json_of_notes ns)
  /\ notes_of_json (json_of_notes ns) = Some ns.
Proof.
  split.
  - apply JSON_parse_stringify_records.
    apply Forall_forall. intros v Hv. apply list_elem_of_In, in_map_iff in Hv.
    destruct Hv as (n & <- & _). apply json_of_note_record.
  - apply mapM_map_Some, note_of_json_of_note.
Qed.

Lemma group_of_json_exact (v : json) (g : Group.t) :
  group_of_json v = Some g -> v = json_of_group g.
Proof.
  unfold group_of_json. intros H.
  repeat case_match; try discriminate H.
  match goal with
  | Hk : bool_decide _ = true |- _ =>
      apply bool_decide_eq_true in Hk; destruct Hk as (-> & -> & -> & ->)
  end.
  injection H as <-. reflexivity.
Qed.

Lemma note_of_json_exact (v : json) (n : Note.t) :
  note_of_json v = Some n -> v = json_of_note n.
Proof.
  unfold note_of_json, as_nullable. intros H.
  repeat case_match; try discriminate H; simplify_eq;
    match goal with
    | Hk : bool_decide _ = true |- _ =>
        apply bool_decide_eq_true in Hk; destruct Hk as (-> & -> & -> & -> & ->)
    end;
    reflexivity.
Qed.

Lemma mapM_exact {A B : Type} (f : A -> option B) (g : B -> A) (vs : list A)
  (l : list B) :
  (forall v x, f v = Some x -> v = g x) -> mapM f vs = Some l -> vs = map g l.
Proof.
  intros Hf H. apply mapM_Some_1 in H.
  induction H as [|v x vs l Hv _ IH]; [reflexivity|].
  cbn. now rewrite (Hf v x Hv), IH.
Qed.

Lemma groups_of_json_exact (v : json) (gs : list Group.t) :
  groups_of_json v = Some gs -> v = json_of_groups gs.
Proof.
  destruct v; try discriminate. cbn. intros H. unfold json_of_groups.
  f_equal. exact (mapM_exact _ _ _ _ group_of_json_exact H).
Qed.

Lemma notes_of_json_exact (v : json) (ns : list Note.t) :
  notes_of_json v = Some ns -> v = json_of_notes ns.
Proof.
  destruct v; try discriminate. cbn. intros H. unfold json_of_notes.
  f_equal. exact (mapM_exact _ _ _ _ note_of_json_exact H).
Qed.

(** ** Persistence *)

Lemma slots_differ : pocketGroups <> pocketNotes.
Proof. intros H. vm_compute in H. discriminate H. Qed.

Lemma loadSlot_groups (gs : list Group.t) :
  loadSlot (Some (JSON_stringify (json_of_groups gs))) = Some (json_of_groups gs).
Proof. apply groups_roundtrip. Qed.

Lemma loadSlot_notes (ns : list Note.t) :
  loadSlot (Some (JSON_stringify (json_of_notes ns))) = Some (json_of_notes ns).
Proof. apply notes_roundtrip. Qed.

(** Starting from a storage that holds the text of two collections. *)
Lemma mount_stored (ls : gmap jsstring jsstring) (gs : list Group.t)
  (ns : list Note.t) :
  ls !! pocketGroups = Some (JSON_stringify (json_of_groups gs)) ->
  ls !! pocketNotes = Some (JSON_stringify (json_of_notes ns)) ->
  exists w, mount ls = Booted w /\ groups (app w) = gs /\ notes (app w) = ns
            /\ selectedGroupId (app w) = None.
Proof.
  intros Hg Hn. rewrite mount_unfold.
  rewrite Hg, Hn, loadSlot_groups, loadSlot_notes.
  rewrite (proj2 (groups_roundtrip gs)), (proj2 (notes_roundtrip ns)).
  eexists. split; [reflexivity|]. cbn. auto.
Qed.

Lemma write_both_in_sync (s : AppState) (w : World) :
  app w = s -> in_sync (write (saveNotes s) (write (saveGroups s) w)).
Proof.
  intros <-. split; cbn.
  - rewrite lookup_insert_ne by (apply not_eq_sym, slots_differ).
    apply lookup_insert_eq.
  - apply lookup_insert_eq.
Qed.

Lemma mount_in_sync (ls : gmap jsstring jsstring) (w : World) :
  mount ls = Booted w -> in_sync w.
Proof.
  rewrite mount_unfold. intros H.
  destruct (loadSlot (ls !! pocketGroups)) as [vg|]; [|discriminate].
  destruct (loadSlot (ls !! pocketNotes)) as [vn|]; [|discriminate].
  destruct (groups_of_json vg) as [gs|]; [|discriminate].
  destruct (notes_of_json vn) as [ns|]; [|discriminate].
  injection H as <-. now apply write_both_in_sync.
Qed.

(** C2.  Whatever the two collections of the component are: once the two
    effects have written them, each slot holds a text that [JSON.parse] turns
    back into the array of the same records in the same order, and a
    component started on that storage holds collections equal to the
    originals. *)
Theorem persistence_roundtrip (s : AppState) (w : World) :
  let stored := localStorage (write (saveNotes s) (write (saveGroups s) w)) in
  stored !! pocketGroups = Some (JSON_stringify (json_of_groups (groups s)))
  /\ stored !! pocketNotes = Some (JSON_stringify (json_of_notes (notes s)))
  /\ loadSlot (stored !! pocketGroups) = Some (json_of_groups (groups s))
  /\ loadSlot (stored !! pocketNotes) = Some (json_of_notes (notes s))
  /\ groups_of_json (json_of_groups (groups s)) = Some (groups s)
  /\ notes_of_json (json_of_notes (notes s)) = Some (notes s)
  /\ exists w', mount stored = Booted w'
                /\ groups (app w') = groups s /\ notes (app w') = notes s.
Proof.
  intros stored.
  assert (Hg : stored !! pocketGroups
               = Some (JSON_stringify (json_of_groups (groups s)))).
  { subst stored. cbn. rewrite lookup_insert_ne by (apply not_eq_sym, slots_differ).
    apply lookup_insert_eq. }
  assert (Hn : stored !! pocketNotes
               = Some (JSON_stringify (json_of_notes (notes s)))).
  { subst stored. cbn. apply lookup_insert_eq. }
  split; [exact Hg|]. split; [exact Hn|].
  rewrite Hg, Hn, loadSlot_groups, loadSlot_notes.
  split; [reflexivity|]. split; [reflexivity|].
  split; [apply groups_roundtrip|]. split; [apply notes_roundtrip|].
  destruct (mount_stored stored _ _ Hg Hn) as (w' & Hm & Hgs & Hns & _).
  now exists w'.
Qed.

(** The calls a handler can make, by shape. *)
Lemma handler_cases (e : Event) (s : AppState) :
  handler' e s = []
  \/ handler' e s = DuplicateNameError
  \/ (exists gs a b c, handler' e s = [setGroups gs; a; b; c]
                       /\ sets_groups [a; b; c] = false
                       /\ sets_notes [a; b; c] = false /\ alerts [a; b; c] = [])
  \/ (exists ns a, handler' e s = [setNotes ns; a]
                   /\ sets_groups [a] = false /\ sets_notes [a] = false
                   /\ alerts [a] = [])
  \/ (sets_groups (handler' e s) = false /\ sets_notes (handler' e s) = false
      /\ alerts (handler' e s) = []
      /\ groups (fold_left apply_call (handler' e s) s) = groups s
      /\ notes (fold_left apply_call (handler' e s) s) = notes s).
Proof.
  destruct e; cbn [handler];
    try (right; right; right; right; cbn; now auto).
  3: { destruct (isModalOpen s); [|now left].
       right; right; right; right. cbn. now auto. }
  - unfold handleCreateGroup.
    destruct (falsy (trim (groupName s))); [now left|].
    destruct (nameTaken (groups s) (groupName s)); [right; now left|].
    right; right; left. do 4 eexists. split; [reflexivity|]. cbn. auto.
  - unfold handleAddNote.
    destruct (falsy (trim (noteText s))); [now left|].
    right; right; right; left. do 2 eexists. split; [reflexivity|]. cbn. auto.
Qed.

Lemma step_in_sync (w : World) (e : Event) : in_sync w -> in_sync (step' w e).
Proof.
  intros [Hg Hn]. unfold step.
  destruct (handler_cases e (app w))
    as [-> | [-> | [(gs & a & b & c & -> & Hsg & Hsn & _)
                    | [(ns & a & -> & Hsg & Hsn & _) | (Hsg & Hsn & _ & Hgs & Hns)]]]].
  - now rewrite commit_nil.
  - split; assumption.
  - unfold commit, sets_groups, sets_notes in *. cbn [existsb orb].
    cbn [existsb] in Hsn. rewrite Hsn.
    destruct a, b, c; try discriminate; split; cbn;
      rewrite ?lookup_insert_eq, ?lookup_insert_ne by exact slots_differ;
      auto.
  - unfold commit, sets_groups, sets_notes in *. cbn [existsb orb].
    cbn [existsb] in Hsg. rewrite Hsg.
    destruct a; try discriminate; split; cbn;
      rewrite ?lookup_insert_eq,
        ?lookup_insert_ne by (apply not_eq_sym, slots_differ);
      auto.
  - unfold commit. rewrite Hsg, Hsn. split; cbn [app localStorage].
    + now rewrite Hgs.
    + now rewrite Hns.
Qed.

Lemma run_in_sync (es : list Event) :
  forall w, in_sync w -> in_sync (run' w es).
Proof.
  induction es as [|e es IH]; intros w H; [exact H|].
  apply IH, step_in_sync, H.
Qed.

(** Whatever the user did since the start, the storage holds the collections:
    a component started on it holds the two collections again. *)
Lemma reload_after_run (ls : gmap jsstring jsstring) (w : World) (es : list Event) :
  mount ls = Booted w ->
  exists w', mount (localStorage (run' w es)) = Booted w'
             /\ groups (app w') = groups (app (run' w es))
             /\ notes (app w') = notes (app (run' w es)).
Proof.
  intros Hm.
  destruct (run_in_sync es w (mount_in_sync ls w Hm)) as [Hg Hn].
  destruct (mount_stored _ _ _ Hg Hn) as (w' & H1 & H2 & H3 & _).
  now exists w'.
Qed.

(** ** Reading the storage *)

Lemma reads_app (key : jsstring) (t1 t2 : list IO) :
  reads key (t1 ++ t2) = (reads key t1 + reads key t2)%nat.
Proof. unfold reads. now rewrite filter_app, length_app. Qed.

Lemma reads_none (key : jsstring) (t : list IO) :
  Forall (fun io => forall k, io <> getItem k) t -> reads key t = 0%nat.
Proof.
  unfold reads. induction 1 as [|io t Hio _ IH]; [reflexivity|].
  rewrite filter_cons_False by apply Hio. exact IH.
Qed.

Lemma alerts_no_read (calls : list Call) :
  Forall (fun io => forall k, io <> getItem k) (alerts calls).
Proof.
  induction calls as [|c calls IH]; [constructor|].
  destruct c; cbn; try exact IH. constructor; [discriminate | exact IH].
Qed.

Lemma commit_trace (calls : list Call) (w : World) :
  exists t, trace (commit calls w) = trace w ++ t
            /\ Forall (fun io => forall k, io <> getItem k) t.
Proof.
  pose proof (alerts_no_read calls) as Ha.
  unfold commit. destruct (sets_groups calls), (sets_notes calls); cbn;
    rewrite <- ?app_assoc; eexists; (split; [reflexivity|]);
    repeat (apply Forall_app; split); try exact Ha;
    repeat constructor; discriminate.
Qed.

Lemma run_reads (key : jsstring) (es : list Event) :
  forall w, reads key (trace (run' w es)) = reads key (trace w).
Proof.
  induction es as [|e es IH]; intros w; [reflexivity|].
  change (run' w (e :: es)) with (run' (step' w e) es). rewrite IH.
  unfold step.
  destruct (commit_trace
              (handler toLocaleDateString_en_GB toLocaleTimeString_en_US e (app w)) w)
    as (t & -> & Ht).
  rewrite reads_app, (reads_none key t Ht). lia.
Qed.

Lemma mount_reads (ls : gmap jsstring jsstring) (w : World) :
  mount ls = Booted w ->
  reads pocketGroups (trace w) = 1%nat /\ reads pocketNotes (trace w) = 1%nat.
Proof.
  rewrite mount_unfold. intros H.
  destruct (loadSlot (ls !! pocketGroups)) as [vg|]; [|discriminate].
  destruct (loadSlot (ls !! pocketNotes)) as [vn|]; [|discriminate].
  destruct (groups_of_json vg) as [gs|]; [|discriminate].
  destruct (notes_of_json vn) as [ns|]; [|discriminate].
  injection H as <-. split; reflexivity.
Qed.

Lemma loadSlot_None (saved : option jsstring) :
  loadSlot saved = None
  <-> exists text, saved = Some text /\ text <> [] /\ JSON_parse text = None.
Proof.
  split.
  - destruct saved as [[|c r]|]; cbn; try discriminate.
    intros H. exists (c :: r). now repeat split.
  - intros (text & -> & Hne & Hp). cbn. now rewrite (falsy_false text Hne).
Qed.

Lemma loadSlot_Some (ls : gmap jsstring jsstring) (key : jsstring) (v : json) :
  loadSlot (ls !! key) = Some v -> loaded_from ls key v.
Proof.
  intros H. split; [|split].
  - intros Hk. rewrite Hk in H. cbn in H. congruence.
  - intros Hk. rewrite Hk in H. cbn in H. congruence.
  - intros text Hk Hne. rewrite Hk in H. cbn in H.
    now rewrite (falsy_false text Hne) in H.
Qed.

(** C8, as the code has it.  The two initialisers complete unless a slot
    holds a payload that [JSON.parse] rejects.  When they complete, each has
    read its slot once and nothing else has touched the storage; a slot that
    is absent gives the empty collection, and so does a slot whose payload
    is the empty string (which is falsy at lines 34 and 39); a slot with any
    other payload gives what [JSON.parse] makes of the payload.  When one of
    them throws, the first slot has been read once and the second once or
    not at all.  No handler and no effect reads a slot, so in the session
    after a start each slot has been read once. *)
Theorem load_on_start (ls : gmap jsstring jsstring) :
  (~ unreadable ls pocketGroups /\ ~ unreadable ls pocketNotes
   <-> exists vg vn env, runInitialisers (ls, []) = (Some (vg, vn), env))
  /\ (forall vg vn env,
        runInitialisers (ls, []) = (Some (vg, vn), env) ->
        loaded_from ls pocketGroups vg /\ loaded_from ls pocketNotes vn
        /\ fst env = ls
        /\ snd env = [getItem pocketGroups; getItem pocketNotes]
        /\ reads pocketGroups (snd env) = 1%nat
        /\ reads pocketNotes (snd env) = 1%nat)
  /\ (forall env,
        runInitialisers (ls, []) = (None, env) ->
        fst env = ls
        /\ reads pocketGroups (snd env) = 1%nat
        /\ (unreadable ls pocketGroups -> reads pocketNotes (snd env) = 0%nat)
        /\ (~ unreadable ls pocketGroups -> reads pocketNotes (snd env) = 1%nat))
  /\ (forall w es key, reads key (trace (run' w es)) = reads key (trace w))
  /\ (forall w,
        mount ls = Booted w ->
        runInitialisers (ls, [])
        = (Some (json_of_groups (groups (app w)), json_of_notes (notes (app w))),
           (ls, [getItem pocketGroups; getItem pocketNotes]))
        /\ forall es, reads pocketGroups (trace (run' w es)) = 1%nat
                      /\ reads pocketNotes (trace (run' w es)) = 1%nat).
Proof.
  pose proof (runInitialisers_unfold ls []) as Hf. cbn [app] in Hf.
  change (@nil IO ++ [getItem pocketGroups]) with [getItem pocketGroups] in Hf.
  change (@nil IO ++ [getItem pocketGroups; getItem pocketNotes])
    with [getItem pocketGroups; getItem pocketNotes] in Hf.
  split; [|split; [|split; [|split]]].
  - rewrite Hf. unfold unreadable. rewrite <- !loadSlot_None. split.
    + intros [Hg Hn].
      destruct (loadSlot (ls !! pocketGroups)) as [vg|]; [|congruence].
      destruct (loadSlot (ls !! pocketNotes)) as [vn|]; [|congruence].
      eauto.
    + intros (vg & vn & env & H).
      destruct (loadSlot (ls !! pocketGroups)) as [vg'|]; [|discriminate].
      destruct (loadSlot (ls !! pocketNotes)) as [vn'|]; [|discriminate].
      split; discriminate.
  - intros vg vn env H. rewrite Hf in H.
    destruct (loadSlot (ls !! pocketGroups)) as [vg'|] eqn:Eg; [|discriminate].
    destruct (loadSlot (ls !! pocketNotes)) as [vn'|] eqn:En; [|discriminate].
    injection H as <- <- <-.
    split; [now apply loadSlot_Some|]. split; [now apply loadSlot_Some|].
    repeat split.
  - intros env H. rewrite Hf in H. unfold unreadable. rewrite <- !loadSlot_None.
    destruct (loadSlot (ls !! pocketGroups)) as [vg'|] eqn:Eg.
    + destruct (loadSlot (ls !! pocketNotes)) as [vn'|] eqn:En; [discriminate|].
      injection H as <-. split; [reflexivity|]. split; [reflexivity|].
      split; [discriminate | reflexivity].
    + injection H as <-. split; [reflexivity|]. split; [reflexivity|].
      split; [reflexivity | congruence].
  - intros w es key. apply run_reads.
  - intros w Hm. pose proof (mount_reads ls w Hm) as [Hrg Hrn].
    rewrite mount_unfold in Hm. rewrite Hf.
    destruct (loadSlot (ls !! pocketGroups)) as [vg|]; [|discriminate].
    destruct (loadSlot (ls !! pocketNotes)) as [vn|]; [|discriminate].
    destruct (groups_of_json vg) as [gs|] eqn:Hg; [|discriminate].
    destruct (notes_of_json vn) as [ns|] eqn:Hn; [|discriminate].
    injection Hm as <-. cbn [app write groups notes] in *.
    rewrite (groups_of_json_exact vg gs Hg), (notes_of_json_exact vn ns Hn).
    split; [reflexivity|].
    intros es. rewrite !run_reads. now split.
Qed.

(** C9.  Content that is not blank is stored as typed: the note appended has
    [content] itself as its content, leading and trailing white space
    included, and so has the record in the slot "pocketNotes", which reads
    back as that note.  The name of a group, by contrast, is stored trimmed. *)
Theorem addNote_keeps_content (groupId : option jsstring) (content : jsstring)
  (dateObj now : N) (w : World) :
  trim content <> [] ->
  let w' := addNote toLocaleDateString_en_GB toLocaleTimeString_en_US
              groupId content dateObj now w in
  exists n,
    notes (app w') = notes (app w) ++ [n]
    /\ Note.content n = content
    /\ localStorage w' !! pocketNotes
       = Some (JSON_stringify (json_of_notes (notes (app w) ++ [n])))
    /\ loadSlot (localStorage w' !! pocketNotes) ≫= notes_of_json
       = Some (notes (app w) ++ [n])
    /\ forall name color t, Group.name (newGroup name color t) = trim name.
Proof.
  intros H w'.
  exists (newNote toLocaleDateString_en_GB toLocaleTimeString_en_US
            groupId content dateObj now).
  subst w'. rewrite addNote_text by exact H. cbn [app notes localStorage].
  rewrite lookup_insert_eq, loadSlot_notes.
  repeat (split; [reflexivity|]).
  split; [exact (proj2 (notes_roundtrip _)) | reflexivity].
Qed.

(** C10.  Content that is not blank, sent while no group is selected:
    [handleAddNote] makes its two calls and no other (no notification, no
    early return), the note appended has [null] as its [groupId], the slot
    "pocketNotes" holds the new collection, and the note is the note of no
    group: no group has its [groupId] as identifier, and the projection finds
    no current group. *)
Theorem addNote_without_selection (content : jsstring) (dateObj now : N) (w : World) :
  trim content <> [] ->
  let w' := addNote toLocaleDateString_en_GB toLocaleTimeString_en_US
              None content dateObj now w in
  let n := newNote toLocaleDateString_en_GB toLocaleTimeString_en_US
             None content dateObj now in
  handleAddNote toLocaleDateString_en_GB toLocaleTimeString_en_US dateObj now
    (app (run' w [select None; TypeNote content]))
  = [setNotes (notes (app w) ++ [n]); setNoteText []]
  /\ notes (app w') = notes (app w) ++ [n]
  /\ Note.groupId n = None
  /\ localStorage w' !! pocketNotes
     = Some (JSON_stringify (json_of_notes (notes (app w) ++ [n])))
  /\ trace w' = trace w ++ [setItem pocketNotes
                              (JSON_stringify (json_of_notes (notes (app w) ++ [n])))]
  /\ listGroups w' = listGroups w
  /\ (forall g, g ∈ listGroups w' -> Some (Group.id g) <> Note.groupId n)
  /\ currentGroup (app w') = None.
Proof.
  intros H w' n. subst w'. rewrite note_form, addNote_text by exact H.
  unfold listGroups. cbn [app notes groups localStorage trace selectedGroupId].
  split; [now apply handleAddNote_text|].
  rewrite lookup_insert_eq.
  repeat (split; [reflexivity|]).
  split; [discriminate|].
  unfold currentGroup. cbn [groups selectedGroupId].
  induction (groups (app w)) as [|g gs IH]; [reflexivity|]. exact IH.
Qed.

(** C7, as the code has it.  An identifier is the decimal text of the clock
    reading taken when the record is built: two identifiers are equal exactly
    when the two readings are, so readings that differ give identifiers that
    differ, and two records built on the same reading share theirs. *)
Theorem newId_follows_clock :
  (forall t1 t2, newId t1 = newId t2 <-> t1 = t2)
  /\ (forall now, newId now = digits (N.to_uint now))
  /\ (forall name color now, Group.id (newGroup name color now) = newId now)
  /\ (forall groupId content dateObj now,
        Note.id (newNote toLocaleDateString_en_GB toLocaleTimeString_en_US
                   groupId content dateObj now) = newId now)
  /\ (forall s now, trim (groupName s) <> [] ->
        nameTaken (groups s) (groupName s) = false ->
        exists rest, handleCreateGroup now s
                     = setGroups (groups s ++ [newGroup (groupName s) (selectedColor s) now])
                         :: rest)
  /\ (forall s dateObj now, trim (noteText s) <> [] ->
        exists rest,
          handleAddNote toLocaleDateString_en_GB toLocaleTimeString_en_US dateObj now s
          = setNotes (notes s ++ [newNote toLocaleDateString_en_GB
                                    toLocaleTimeString_en_US (selectedGroupId s)
                                    (noteText s) dateObj now]) :: rest).
Proof.
  split; [|split; [|split; [|split; [|split]]]]; try reflexivity.
  - intros t1 t2. split; [apply toString_inj | now intros ->].
  - intros s now H Ht. rewrite handleCreateGroup_fresh by assumption. eauto.
  - intros s dateObj now H. rewrite handleAddNote_text by assumption. eauto.
Qed.

End WithLocale.

(** ** Closed instances

    The statements above, at concrete inputs, with the Latin-1 case
    mapping. *)

Section Examples.

#[local] Existing Instance Latin1.

Lemma mount_empty : mount ∅ = Booted first_run.
Proof. reflexivity. Qed.

(** The scenario of the specification: "Family" is created with initials
    "F", a note is added to it and listed, and "family" is then refused. *)
Example scenario_family :
  let w1 := createGroup fixed_date fixed_time (str "Family") (str "#B38BFA")
              1700000000000 first_run in
  let w2 := addNote fixed_date fixed_time (Some (str "1700000000000"))
              (str "Dinner at 7") 1700000000500 1700000000500 w1 in
  let w3 := createGroup fixed_date fixed_time (str "family") (str "#FF79F2")
              1700000001000 w2 in
  listGroups w1
  = [Group.mk (str "1700000000000") (str "Family") (str "#B38BFA") (str "F")]
  /\ map Note.content (listNotesFor (Some (str "1700000000000")) w2)
     = [str "Dinner at 7"]
  /\ listGroups w3 = listGroups w1
  /\ last (trace w3) = Some (alerted (str "Group name already exists!")).
Proof. vm_compute. repeat split; reflexivity. Qed.

(** C1 fails as stated: the upper-case form of the name U+00DF (sharp s) is
    "SS", whose lower-case form "ss" is not the lower-case form of the
    name; the second [createGroup] creates a second group.  And where the
    storage holds a group with the empty name, a blank candidate name has
    the trimmed form of that name and yet is ignored without the
    notification. *)
Lemma createGroup_duplicate_counterexample :
  (trim [223] <> []
   /\ handleCreateGroup 1700000000001
        (app (run fixed_date fixed_time
                (createGroup fixed_date fixed_time [223] (str "#B38BFA")
                   1700000000000 first_run)
                [TypeGroupName (toUpperCase [223]); PickColor (str "#FF79F2")]))
      <> DuplicateNameError
   /\ map Group.name
        (listGroups
           (createGroup fixed_date fixed_time (toUpperCase [223]) (str "#FF79F2")
              1700000000001
              (createGroup fixed_date fixed_time [223] (str "#B38BFA")
                 1700000000000 first_run)))
      = [[223]; str "SS"])
  /\ (exists w,
        mount {[ pocketGroups :=
                   JSON_stringify
                     (json_of_groups [Group.mk (str "1") [] (str "#B38BFA") []]) ]}
        = Booted w
        /\ Exists (fun g => ci_equal (Group.name g) (trim (str " "))) (listGroups w)
        /\ handleCreateGroup 1700000000000
             (app (run fixed_date fixed_time w
                     [TypeGroupName (str " "); PickColor (str "#B38BFA")]))
           = []
        /\ [] <> DuplicateNameError).
Proof.
  split.
  - split; [discriminate|]. split; [|vm_compute; reflexivity].
    vm_compute. discriminate.
  - eexists. split; [vm_compute; reflexivity|].
    split; [constructor; reflexivity|]. split; [reflexivity | discriminate].
Qed.

(** "Family" exists and " family " is refused; "café" is created and "CAFÉ"
    is refused; the ASCII name "Work" has an upper-case form that is the
    same name. *)
Lemma createGroup_duplicate_rejected_witness :
  (trim (str " family ") <> []
   /\ Exists (fun g => ci_equal (Group.name g) (trim (str " family ")))
        (listGroups (createGroup fixed_date fixed_time (str "Family") (str "#B38BFA")
                       1700000000000 first_run))
   /\ listGroups
        (createGroup fixed_date fixed_time (str " family ") (str "#FF79F2")
           1700000001000
           (createGroup fixed_date fixed_time (str "Family") (str "#B38BFA")
              1700000000000 first_run))
      = listGroups (createGroup fixed_date fixed_time (str "Family") (str "#B38BFA")
                      1700000000000 first_run))
  /\ (trim [99; 97; 102; 233] <> []
      /\ trim (toUpperCase [99; 97; 102; 233]) <> []
      /\ ci_equal (trim (toUpperCase [99; 97; 102; 233])) (trim [99; 97; 102; 233])
      /\ toUpperCase [99; 97; 102; 233] = [67; 65; 70; 201]
      /\ handleCreateGroup 1700000001000
           (app (run fixed_date fixed_time
                   (createGroup fixed_date fixed_time [99; 97; 102; 233]
                      (str "#B38BFA") 1700000000000 first_run)
                   [TypeGroupName (toUpperCase [99; 97; 102; 233]);
                    PickColor (str "#FF79F2")]))
         = DuplicateNameError)
  /\ (ascii_only (str "Work") /\ trim (str "Work") <> []
      /\ ci_equal (trim (toUpperCase (str "Work"))) (trim (str "Work"))).
Proof.
  assert (H1 : trim (str " family ") <> []) by discriminate.
  assert (H2 : Exists (fun g => ci_equal (Group.name g) (trim (str " family ")))
        (listGroups (createGroup fixed_date fixed_time (str "Family") (str "#B38BFA")
                       1700000000000 first_run))).
  { constructor. reflexivity. }
  assert (H3 : ascii_only (str "Work")).
  { repeat constructor. }
  assert (H4 : trim (str "Work") <> []) by discriminate.
  assert (H5 : trim [99; 97; 102; 233] <> []) by discriminate.
  assert (H6 : trim (toUpperCase [99; 97; 102; 233]) <> []) by discriminate.
  assert (H7 : ci_equal (trim (toUpperCase [99; 97; 102; 233]))
                 (trim [99; 97; 102; 233])) by reflexivity.
  destruct (createGroup_duplicate_rejected fixed_date fixed_time
              (createGroup fixed_date fixed_time (str "Family") (str "#B38BFA")
                 1700000000000 first_run)) as (Ha & _ & _).
  destruct (createGroup_duplicate_rejected fixed_date fixed_time first_run)
    as (_ & Hb & Hc).
  split; [|split].
  - split; [exact H1|]. split; [exact H2|].
    exact (proj1 (proj2 (proj2 (Ha (str " family ") (str "#FF79F2") 1700000001000
                                  H1 H2)))).
  - split; [exact H5|]. split; [exact H6|]. split; [exact H7|].
    split; [reflexivity|].
    exact (proj1 (Hb [99; 97; 102; 233] (str "#B38BFA") (str "#FF79F2")
                    1700000000000 1700000001000 H5 H6 H7)).
  - split; [exact H3|]. split; [exact H4|].
    exact (proj2 (Hc (str "Work") H3 H4)).
Defined.

(** " mom dad " after "Family": the collection of two, and the record
    created. *)
Lemma createGroup_appends_witness :
  trim (str " mom dad ") <> []
  /\ ~ Exists (fun g => ci_equal (Group.name g) (trim (str " mom dad ")))
         (listGroups (createGroup fixed_date fixed_time (str "Family")
                        (str "#B38BFA") 1700000000000 first_run))
  /\ listGroups
       (createGroup fixed_date fixed_time (str " mom dad ") (str "#43E6FC")
          1700000001000
          (createGroup fixed_date fixed_time (str "Family") (str "#B38BFA")
             1700000000000 first_run))
     = [Group.mk (str "1700000000000") (str "Family") (str "#B38BFA") (str "F");
        Group.mk (str "1700000001000") (str "mom dad") (str "#43E6FC") (str "MD")]
  /\ created
       (handleCreateGroup 1700000001000
          (app (run fixed_date fixed_time
                  (createGroup fixed_date fixed_time (str "Family") (str "#B38BFA")
                     1700000000000 first_run)
                  [TypeGroupName (str " mom dad "); PickColor (str "#43E6FC")])))
     = Some (Group.mk (str "1700000001000") (str "mom dad") (str "#43E6FC")
               (str "MD")).
Proof.
  assert (H1 : trim (str " mom dad ") <> []) by discriminate.
  assert (H2 : ~ Exists (fun g => ci_equal (Group.name g) (trim (str " mom dad ")))
                   (listGroups (createGroup fixed_date fixed_time (str "Family")
                                  (str "#B38BFA") 1700000000000 first_run))).
  { intros H. apply Exists_cons in H as [H | H]; [discriminate H | inversion H]. }
  split; [exact H1|]. split; [exact H2|].
  destruct (createGroup_appends fixed_date fixed_time (str " mom dad ")
              (str "#43E6FC") 1700000001000
              (createGroup fixed_date fixed_time (str "Family") (str "#B38BFA")
                 1700000000000 first_run) H1 H2) as (_ & Hc & Hl & _).
  split; [exact Hl | exact Hc].
Defined.


(** A space, a tab and a line feed. *)
Lemma addNote_blank_noop_witness :
  whitespace_only [32; 9; 10]
  /\ notes (app (addNote fixed_date fixed_time (Some (str "1")) [32; 9; 10]
                   1700000000000 1700000000000 first_run))
     = notes (app first_run)
  /\ localStorage (addNote fixed_date fixed_time (Some (str "1")) [32; 9; 10]
                     1700000000000 1700000000000 first_run)
     = localStorage first_run.
Proof.
  assert (H : whitespace_only [32; 9; 10]) by (repeat constructor).
  split; [exact H|].
  pose proof (addNote_blank_noop fixed_date fixed_time (Some (str "1")) [32; 9; 10]
                1700000000000 1700000000000 first_run H) as (_ & _ & Hn & Hl & _).
  split; [exact Hn | exact Hl].
Defined.

(** A note added to group "1", seen from group "1" and from group "2". *)
Lemma listNotesFor_exact_in_order_witness :
  trim (str "Dinner at 7") <> []
  /\ listNotesFor (Some (str "1"))
       (addNote fixed_date fixed_time (Some (str "1")) (str "Dinner at 7")
          1700000000000 1700000000000 first_run)
     = listNotesFor (Some (str "1")) first_run
       ++ [newNote fixed_date fixed_time (Some (str "1")) (str "Dinner at 7")
             1700000000000 1700000000000]
  /\ listNotesFor (Some (str "2"))
       (addNote fixed_date fixed_time (Some (str "1")) (str "Dinner at 7")
          1700000000000 1700000000000 first_run)
     = listNotesFor (Some (str "2")) first_run.
Proof.
  assert (H : trim (str "Dinner at 7") <> []) by discriminate.
  split; [exact H|]. split.
  - exact (proj2 (proj2 (proj2 (listNotesFor_exact_in_order fixed_date fixed_time
                                  (Some (str "1")) first_run)))
             (Some (str "1")) (str "Dinner at 7") 1700000000000 1700000000000 H).
  - exact (proj2 (proj2 (proj2 (listNotesFor_exact_in_order fixed_date fixed_time
                                  (Some (str "2")) first_run)))
             (Some (str "1")) (str "Dinner at 7") 1700000000000 1700000000000 H).
Defined.

(** C7 fails as stated: two notes built on the same clock reading carry the
    same identifier. *)
Lemma newId_collision_counterexample :
  map Note.id
    (notes (app (run fixed_date fixed_time first_run
                   [ClickGroup (str "1"); TypeNote (str "a");
                    Send 1700000000000 1700000000000; TypeNote (str "b");
                    Send 1700000000000 1700000000000])))
  = [str "1700000000000"; str "1700000000000"]
  /\ ~ NoDup (map Note.id
                (notes (app (run fixed_date fixed_time first_run
                               [ClickGroup (str "1"); TypeNote (str "a");
                                Send 1700000000000 1700000000000; TypeNote (str "b");
                                Send 1700000000000 1700000000000])))).
Proof.
  assert (H : map Note.id
    (notes (app (run fixed_date fixed_time first_run
                   [ClickGroup (str "1"); TypeNote (str "a");
                    Send 1700000000000 1700000000000; TypeNote (str "b");
                    Send 1700000000000 1700000000000])))
  = [str "1700000000000"; str "1700000000000"]) by (vm_compute; reflexivity).
  split; [exact H|]. rewrite H. intros Hn. apply NoDup_cons in Hn as [Hn _].
  apply Hn. constructor.
Qed.

(** A group and a note built at given clock readings. *)
Lemma newId_follows_clock_witness :
  (trim (str "Work") <> []
   /\ nameTaken [] (str "Work") = false
   /\ exists rest,
       handleCreateGroup 1700000000000
         (mkApp [] [] None true (str "Work") (str "#B38BFA") [])
       = setGroups ([] ++ [newGroup (str "Work") (str "#B38BFA") 1700000000000])
           :: rest)
  /\ (trim (str "hello") <> []
      /\ exists rest,
          handleAddNote fixed_date fixed_time 1700000000000 1700000000001
            (mkApp [] [] (Some (str "1")) false [] (str "#B38BFA") (str "hello"))
          = setNotes ([] ++ [newNote fixed_date fixed_time (Some (str "1"))
                               (str "hello") 1700000000000 1700000000001])
              :: rest).
Proof.
  assert (H1 : trim (str "Work") <> []) by discriminate.
  assert (H2 : trim (str "hello") <> []) by discriminate.
  destruct (newId_follows_clock fixed_date fixed_time) as (_ & _ & _ & _ & Hg & Hn).
  split.
  - split; [exact H1|]. split; [reflexivity|].
    exact (Hg (mkApp [] [] None true (str "Work") (str "#B38BFA") [])
             1700000000000 H1 eq_refl).
  - split; [exact H2|].
    exact (Hn (mkApp [] [] (Some (str "1")) false [] (str "#B38BFA") (str "hello"))
             1700000000000 1700000000001 H2).
Defined.

(** C8 fails as stated: a slot that is present with the empty string as its
    payload is not deserialized ([JSON.parse] of the empty string is a
    [SyntaxError]); the collection starts empty.  And a slot that is present
    with a payload that is no JSON text is not deserialized either: the
    render throws and no collection is initialized. *)
Lemma load_empty_payload_counterexample :
  ({[ pocketGroups := [] ]} : gmap jsstring jsstring) !! pocketGroups = Some []
  /\ JSON_parse [] = None
  /\ loadSlot (({[ pocketGroups := [] ]} : gmap jsstring jsstring) !! pocketGroups)
     = Some (JArr [])
  /\ loadSlot (({[ pocketGroups := [] ]} : gmap jsstring jsstring) !! pocketGroups)
     <> JSON_parse []
  /\ (exists w, mount {[ pocketGroups := [] ]} = Booted w /\ groups (app w) = [])
  /\ ({[ pocketNotes := str "{" ]} : gmap jsstring jsstring) !! pocketNotes
     = Some (str "{")
  /\ runInitialisers ({[ pocketNotes := str "{" ]}, [])
     = (None, ({[ pocketNotes := str "{" ]},
               [getItem pocketGroups; getItem pocketNotes]))
  /\ mount {[ pocketNotes := str "{" ]} = BootSyntaxError.
Proof.
  split; [reflexivity|]. split; [reflexivity|]. split; [reflexivity|].
  split; [discriminate|]. split; [eexists; split; reflexivity|].
  split; [reflexivity|]. split; reflexivity.
Qed.

(** A start from a storage with the text of the empty array in one slot and
    nothing in the other, a start that fails, and the reads of a session
    after the start from the empty storage. *)
Lemma load_on_start_witness :
  (runInitialisers ({[ pocketNotes := str "[]" ]}, [])
   = (Some (JArr [], JArr []),
      ({[ pocketNotes := str "[]" ]}, [getItem pocketGroups; getItem pocketNotes]))
   /\ loaded_from {[ pocketNotes := str "[]" ]} pocketGroups (JArr [])
   /\ loaded_from {[ pocketNotes := str "[]" ]} pocketNotes (JArr [])
   /\ JSON_parse (str "[]") = Some (JArr [])
   /\ reads pocketNotes [getItem pocketGroups; getItem pocketNotes] = 1%nat)
  /\ (runInitialisers ({[ pocketGroups := str "[" ]}, [])
      = (None, ({[ pocketGroups := str "[" ]}, [getItem pocketGroups]))
      /\ reads pocketGroups [getItem pocketGroups] = 1%nat)
  /\ (mount ∅ = Booted first_run
      /\ reads pocketGroups
           (trace (run fixed_date fixed_time first_run
                     [TypeNote (str "a"); Send 1700000000000 1700000000000]))
         = 1%nat).
Proof.
  assert (H1 : runInitialisers ({[ pocketNotes := str "[]" ]}, [])
               = (Some (JArr [], JArr []),
                  ({[ pocketNotes := str "[]" ]},
                   [getItem pocketGroups; getItem pocketNotes]))) by reflexivity.
  assert (H2 : runInitialisers ({[ pocketGroups := str "[" ]}, [])
               = (None, ({[ pocketGroups := str "[" ]}, [getItem pocketGroups])))
    by reflexivity.
  assert (H4 : mount ∅ = Booted first_run) by reflexivity.
  split; [|split].
  - split; [exact H1|].
    destruct (proj1 (proj2 (load_on_start fixed_date fixed_time
                              {[ pocketNotes := str "[]" ]})) _ _ _ H1)
      as (Hg & Hn & _ & _ & _ & Hr).
    split; [exact Hg|]. split; [exact Hn|]. split; [reflexivity | exact Hr].
  - split; [exact H2|].
    destruct (load_on_start fixed_date fixed_time {[ pocketGroups := str "[" ]})
      as (_ & _ & Hf & _).
    exact (proj1 (proj2 (Hf _ H2))).
  - split; [exact H4|].
    destruct (load_on_start fixed_date fixed_time ∅) as (_ & _ & _ & _ & Hs).
    exact (proj1 (proj2 (Hs first_run H4)
                    [TypeNote (str "a"); Send 1700000000000 1700000000000])).
Defined.

(** Content with white space on both sides. *)
Lemma addNote_keeps_content_witness :
  trim (str "  hi  ") <> []
  /\ trim (str "  hi  ") <> str "  hi  "
  /\ exists n,
      notes (app (addNote fixed_date fixed_time (Some (str "1")) (str "  hi  ")
                    1700000000000 1700000000000 first_run))
      = notes (app first_run) ++ [n]
      /\ Note.content n = str "  hi  ".
Proof.
  assert (H : trim (str "  hi  ") <> []) by discriminate.
  split; [exact H|]. split; [discriminate|].
  destruct (addNote_keeps_content fixed_date fixed_time (Some (str "1")) (str "  hi  ")
              1700000000000 1700000000000 first_run H) as (n & Hn & Hc & _).
  exists n. split; [exact Hn | exact Hc].
Defined.

(** A note sent on the first screen. *)
Lemma addNote_without_selection_witness :
  trim (str "orphan") <> []
  /\ notes (app (addNote fixed_date fixed_time None (str "orphan")
                   1700000000000 1700000000000 first_run))
     = notes (app first_run)
       ++ [newNote fixed_date fixed_time None (str "orphan")
             1700000000000 1700000000000]
  /\ currentGroup (app (addNote fixed_date fixed_time None (str "orphan")
                          1700000000000 1700000000000 first_run)) = None.
Proof.
  assert (H : trim (str "orphan") <> []) by discriminate.
  split; [exact H|].
  pose proof (addNote_without_selection fixed_date fixed_time (str "orphan")
                1700000000000 1700000000000 first_run H)
    as (_ & Hn & _ & _ & _ & _ & _ & Hc).
  split; [exact Hn | exact Hc].
Defined.

End Examples.

(** * Further properties of the component *)

Section Initials.

Context {cm : CaseMapping}.

Lemma trimStart_id (s : jsstring) :
  (s = [] \/ exists c r, s = c :: r /\ is_ws c = false) -> trimStart s = s.
Proof.
  intros [-> | (c & r & -> & Hc)]; [reflexivity|]. simpl. now rewrite Hc.
Qed.

Lemma trim_fixed (t : jsstring) :
  (exists c r, t = c :: r /\ is_ws c = false) ->
  (exists a z, t = a ++ [z] /\ is_ws z = false) -> trim t = t.
Proof.
  intros Hs (a & z & Ha & Hz). unfold trim, trimEnd.
  rewrite (trimStart_id t) by now right.
  rewrite Ha, rev_app_distr. simpl. rewrite Hz. simpl.
  now rewrite rev_involutive.
Qed.

Lemma trim_idempotent (s : jsstring) : trim (trim s) = trim s.
Proof.
  destruct (decide (trim s = [])) as [He | Hne]; [now rewrite He|].
  destruct (trim_ends s Hne) as [Hs He]. now apply trim_fixed.
Qed.

Lemma getInitials_unfold (name : jsstring) :
  name <> [] ->
  getInitials name
  = match split_ws (trim name) with
    | [w] => toUpperCase (charAt0 w)
    | w0 :: w1 :: _ => toUpperCase (charAt0 w0 ++ charAt0 w1)
    | [] => []
    end.
Proof. destruct name; [congruence | reflexivity]. Qed.

(** The one field of a blank name is empty, and so is its initial. *)
Lemma getInitials_nil (name : jsstring) : trim name = [] -> getInitials name = [].
Proof.
  intros H. destruct name as [|c r]; [reflexivity|].
  rewrite getInitials_unfold by discriminate.
  rewrite H. apply toUpperCase_nil.
Qed.

(** X1.  A name that is empty or made of white space has no initials. *)
Theorem getInitials_blank (name : jsstring) :
  whitespace_only name -> getInitials name = [].
Proof.
  intros H. destruct name as [|c r]; [reflexivity|].
  apply getInitials_nil. now apply trim_whitespace.
Qed.

(** X2.  White space around a name does not change its initials: the
    initials stored with a group are those of the stored, trimmed name. *)
Theorem getInitials_trim (name : jsstring) :
  getInitials (trim name) = getInitials name.
Proof.
  destruct (decide (trim name = [])) as [He | Hne].
  - rewrite He. symmetry. now apply getInitials_nil.
  - rewrite (getInitials_unfold (trim name) Hne), trim_idempotent.
    symmetry. apply getInitials_unfold. intros ->. now apply Hne.
Qed.

Lemma ascii_up_not_lower (c : N) : c < 128 -> ascii_up c < 97 \/ 122 < ascii_up c.
Proof.
  intros H. unfold ascii_up.
  destruct (N.leb_spec 97 c), (N.leb_spec c 122); simpl; lia.
Qed.

Lemma ascii_up_ascii (c : N) : c < 128 -> ascii_up c < 128.
Proof.
  intros H. unfold ascii_up.
  destruct (N.leb_spec 97 c), (N.leb_spec c 122); simpl; lia.
Qed.

(** X3.  An ASCII name that is not blank has one initial if it is one word
    and two otherwise, and no initial is a lower-case letter. *)
Theorem getInitials_ascii (name : jsstring) :
  ascii_only name -> trim name <> [] ->
  (is_word (trim name) /\ length (getInitials name) = 1%nat
   \/ ~ is_word (trim name) /\ length (getInitials name) = 2%nat)
  /\ Forall (fun c => c < 128 /\ (c < 97 \/ 122 < c)) (getInitials name).
Proof.
  intros Ha Hne. pose proof (Forall_trim _ _ Ha) as Ht.
  destruct (getInitials_words name Hne) as (Hcov & Hone & Htwo).
  destruct Hcov as [Hw | (w1 & w2 & Hw)].
  - destruct (trim name) as [|c w] eqn:Et; [congruence|].
    rewrite (proj1 (Hone c w eq_refl Hw)).
    apply Forall_cons in Ht as [Hc _].
    rewrite (toUpperCase_ascii [c]) by (now repeat constructor). cbn.
    split; [now left|].
    constructor; [|constructor].
    split; [now apply ascii_up_ascii | now apply ascii_up_not_lower].
  - pose proof Hw as (sep & rest & Heq & Hn1 & Hw1 & Hns & Hsep & Hn2 & Hw2 & Hrest).
    destruct w1 as [|c1 w1]; [congruence|]. destruct w2 as [|c2 w2]; [congruence|].
    rewrite (proj1 (Htwo c1 w1 c2 w2 Hw)).
    rewrite Heq in Ht.
    assert (Hc1 : c1 < 128) by (apply Forall_app in Ht as [Ht _]; now apply Forall_cons in Ht as [? _]).
    assert (Hc2 : c2 < 128).
    { apply Forall_app in Ht as [_ Ht]. apply Forall_app in Ht as [_ Ht].
      apply Forall_app in Ht as [Ht _]. now apply Forall_cons in Ht as [? _]. }
    rewrite (toUpperCase_ascii [c1; c2]) by (now repeat constructor). cbn.
    split.
    + right. split; [|reflexivity]. intros Hword. rewrite Heq in Hword.
      apply Forall_app in Hword as [_ Hword]. apply Forall_app in Hword as [Hword _].
      destruct Hsep as [|x sep Hx _]; [congruence|].
      apply Forall_cons in Hword as [Hx' _]. congruence.
    + constructor; [|constructor; [|constructor]];
        (split; [now apply ascii_up_ascii | now apply ascii_up_not_lower]).
Qed.

Lemma digits_range (d : Decimal.uint) : Forall (fun c => 48 <= c <= 57) (digits d).
Proof. induction d; simpl; constructor; (lia || assumption). Qed.

Theorem newId_digits (now : N) : is_digits (newId now).
Proof.
  split; [|apply digits_range].
  unfold newId, toString. intros H.
  assert (Hn : N.to_uint now = Decimal.Nil) by (now destruct (N.to_uint now)).
  pose proof (DecimalN.Unsigned.of_to now) as Hof. rewrite Hn in Hof.
  cbn in Hof. subst now. discriminate Hn.
Qed.

Lemma app_commit (calls : list Call) (w : World) :
  app (commit calls w) = fold_left apply_call calls (app w).
Proof. unfold commit. now destruct (sets_groups calls), (sets_notes calls). Qed.

Lemma currentGroup_find (s : AppState) :
  (currentGroup s = None
   <-> forall g, g ∈ groups s -> Some (Group.id g) <> selectedGroupId s)
  /\ (forall g, currentGroup s = Some g ->
                 g ∈ groups s /\ Some (Group.id g) = selectedGroupId s)
  /\ (forall g, g ∈ groups s -> Some (Group.id g) = selectedGroupId s ->
                 NoDup (map Group.id (groups s)) -> currentGroup s = Some g).
Proof.
  unfold currentGroup. induction (groups s) as [|g0 gs (IHn & IHs & IHd)].
  - split; [|split].
    + split; [intros _ g Hg; inversion Hg | reflexivity].
    + discriminate.
    + intros g Hg. inversion Hg.
  - cbn [find]. case_bool_decide as Hid.
    + split; [|split].
      * split; [discriminate|]. intros H. exfalso. apply (H g0); [left | exact Hid].
      * intros g [= <-]. split; [left | exact Hid].
      * intros g Hg Hsel Hnd. apply elem_of_cons in Hg as [-> | Hg]; [reflexivity|].
        cbn in Hnd. apply NoDup_cons in Hnd as [Hnot _]. exfalso. apply Hnot.
        apply list_elem_of_In, in_map_iff. exists g. split; [|now apply list_elem_of_In].
        congruence.
    + split; [|split].
      * rewrite IHn. split.
        -- intros H g Hg. apply elem_of_cons in Hg as [-> | Hg]; auto.
        -- intros H g Hg. apply H. now right.
      * intros g Hg. destruct (IHs g Hg). split; [now right | assumption].
      * intros g Hg Hsel Hnd. apply elem_of_cons in Hg as [-> | Hg]; [contradiction|].
        cbn in Hnd. apply NoDup_cons in Hnd as [_ Hnd]. now apply IHd.
Qed.

(** X15.  [currentGroup] is absent exactly when no group has the selected
    identifier; a group it returns is in the collection and has that
    identifier; with distinct identifiers it is the group selected. *)
Theorem currentGroup_spec (s : AppState) :
  (currentGroup s = None
   <-> forall g, g ∈ groups s -> Some (Group.id g) <> selectedGroupId s)
  /\ (forall g, currentGroup s = Some g ->
                 g ∈ groups s /\ Some (Group.id g) = selectedGroupId s)
  /\ (forall g, g ∈ groups s -> Some (Group.id g) = selectedGroupId s ->
                 NoDup (map Group.id (groups s)) -> currentGroup s = Some g).
Proof. apply currentGroup_find. Qed.

Lemma NoDup_app_drop {A : Type} (l : list A) (x : A) (k : list A) :
  NoDup (l ++ x :: k) -> NoDup (l ++ k).
Proof.
  rewrite !NoDup_app. intros (Hl & Hd & Hk). apply NoDup_cons in Hk as [_ Hk].
  repeat split; try assumption. intros y Hy Hin. apply (Hd y Hy). now right.
Qed.

Lemma NoDup_app_snoc {A : Type} (l : list A) (x : A) (k : list A) :
  NoDup (l ++ x :: k) -> NoDup ((l ++ [x]) ++ k).
Proof. now rewrite <- app_assoc. Qed.

(** From here on the two renderings of [Intl] are arbitrary again. *)
End Initials.

Section Sessions.

Context {cm : CaseMapping}.

Context (toLocaleDateString_en_GB : N -> jsstring).
Context (toLocaleTimeString_en_US : N -> jsstring).

Abbreviation handleAddNote' :=
  (handleAddNote toLocaleDateString_en_GB toLocaleTimeString_en_US).
Abbreviation handler' := (handler toLocaleDateString_en_GB toLocaleTimeString_en_US).
Abbreviation step' := (step toLocaleDateString_en_GB toLocaleTimeString_en_US).
Abbreviation run' := (run toLocaleDateString_en_GB toLocaleTimeString_en_US).
Abbreviation createGroup' :=
  (createGroup toLocaleDateString_en_GB toLocaleTimeString_en_US).
Abbreviation addNote' := (addNote toLocaleDateString_en_GB toLocaleTimeString_en_US).
Abbreviation newNote' := (newNote toLocaleDateString_en_GB toLocaleTimeString_en_US).


(** What one event does to the collections and to the storage: nothing, or
    a group appended and stored, or a note appended and stored. *)
Lemma step_effect (w : World) (e : Event) :
  (groups (app (step' w e)) = groups (app w)
   /\ notes (app (step' w e)) = notes (app w)
   /\ localStorage (step' w e) = localStorage w)
  \/ (exists now,
        e = ClickCreate now
        /\ trim (groupName (app w)) <> []
        /\ nameTaken (groups (app w)) (groupName (app w)) = false
        /\ groups (app (step' w e))
           = groups (app w)
             ++ [newGroup (groupName (app w)) (selectedColor (app w)) now]
        /\ notes (app (step' w e)) = notes (app w)
        /\ localStorage (step' w e)
           = <[pocketGroups :=
                 JSON_stringify (json_of_groups (groups (app (step' w e))))]>
               (localStorage w))
  \/ (exists dateObj now,
        e = Send dateObj now
        /\ trim (noteText (app w)) <> []
        /\ groups (app (step' w e)) = groups (app w)
        /\ notes (app (step' w e))
           = notes (app w)
             ++ [newNote' (selectedGroupId (app w)) (noteText (app w)) dateObj now]
        /\ localStorage (step' w e)
           = <[pocketNotes :=
                 JSON_stringify (json_of_notes (notes (app (step' w e))))]>
               (localStorage w)).
Proof.
  destruct e; try (left; repeat split; reflexivity).
  - destruct (decide (trim (groupName (app w)) = [])) as [He | Hne].
    { left. unfold step. cbn [handler].
      rewrite handleCreateGroup_blank by exact He. now rewrite commit_nil. }
    destruct (nameTaken (groups (app w)) (groupName (app w))) eqn:Ht.
    { left. unfold step. cbn [handler].
      rewrite handleCreateGroup_taken by assumption. repeat split; reflexivity. }
    right; left. exists now. unfold step. cbn [handler].
    rewrite handleCreateGroup_fresh by assumption. repeat split; auto.
  - destruct (decide (trim (noteText (app w)) = [])) as [He | Hne].
    { left. unfold step. cbn [handler].
      rewrite handleAddNote_blank by (now apply trim_nil_iff).
      now rewrite commit_nil. }
    right; right. exists dateObj, now. unfold step. cbn [handler].
    rewrite handleAddNote_text by assumption. repeat split; auto.
  - left. unfold step. cbn [handler]. destruct (isModalOpen (app w));
      repeat split; reflexivity.
Qed.

Lemma run_cons (w : World) (e : Event) (es : list Event) :
  run' w (e :: es) = run' (step' w e) es.
Proof. reflexivity. Qed.

Lemma run_invariant (P : World -> Prop) :
  (forall w e, P w -> P (step' w e)) ->
  forall es w, P w -> P (run' w es).
Proof.
  intros Hstep es. induction es as [|e es IH]; intros w H; [exact H|].
  rewrite run_cons. apply IH, Hstep, H.
Qed.

(** X4.  Whatever the user does, the collections only grow, at their end:
    no record is removed, changed or moved. *)
Theorem collections_append_only (w : World) (es : list Event) :
  (exists more, groups (app (run' w es)) = groups (app w) ++ more)
  /\ (exists more, notes (app (run' w es)) = notes (app w) ++ more).
Proof.
  revert w. induction es as [|e es IH]; intros w.
  { split; exists []; now rewrite app_nil_r. }
  rewrite run_cons. destruct (IH (step' w e)) as [[mg Hg] [mn Hn]].
  rewrite Hg, Hn.
  destruct (step_effect w e)
    as [(Eg & En & _) | [(now & _ & _ & _ & Eg & En & _)
                        | (d & now & _ & _ & Eg & En & _)]];
    rewrite Eg, En, <- ?app_assoc; eauto.
Qed.

(** X5.  Group names that are distinct for the comparison of line 95 stay
    distinct, whatever the user does. *)
Theorem names_stay_distinct (w : World) (es : list Event) :
  names_distinct (groups (app w)) -> names_distinct (groups (app (run' w es))).
Proof.
  revert w. apply (run_invariant (fun w => names_distinct (groups (app w)))).
  intros w e H.
  destruct (step_effect w e)
    as [(Eg & _) | [(now & _ & Hne & Ht & Eg & _) | (d & now & _ & _ & Eg & _)]];
    rewrite Eg; try exact H.
  unfold names_distinct in *. rewrite map_app. apply NoDup_app.
  split; [exact H|]. split; [|apply NoDup_singleton].
  intros x Hx Hin. apply list_elem_of_singleton in Hin. subst x.
  apply not_true_iff_false in Ht. apply Ht, nameTaken_Exists.
  apply list_elem_of_In, in_map_iff in Hx. destruct Hx as (g & Hg & Hin).
  apply Exists_exists. exists g. split; [now apply list_elem_of_In | exact Hg].
Qed.

Lemma newGroup_wf (name color : jsstring) (now : N) :
  trim name <> [] -> group_wf (newGroup name color now).
Proof.
  intros H. repeat split; cbn.
  - apply trim_idempotent.
  - exact H.
  - rewrite (getInitials_unfold (trim name) H), trim_idempotent.
    apply getInitials_unfold. intros ->. now apply H.
  - apply newId_digits.
  - apply digits_range.
Qed.

(** X6.  Every group keeps a trimmed, non-empty name, the initials of that
    name and a number as identifier. *)
Theorem groups_stay_wellformed (w : World) (es : list Event) :
  Forall group_wf (groups (app w)) -> Forall group_wf (groups (app (run' w es))).
Proof.
  revert w. apply (run_invariant (fun w => Forall group_wf (groups (app w)))).
  intros w e H.
  destruct (step_effect w e)
    as [(Eg & _) | [(now & _ & Hne & Ht & Eg & _) | (d & now & _ & _ & Eg & _)]];
    rewrite Eg; try exact H.
  apply Forall_app. split; [exact H|]. constructor; [|constructor].
  now apply newGroup_wf.
Qed.

(** X7.  No note with blank content enters the collection, and every note
    has a number as identifier. *)
Theorem notes_stay_wellformed (w : World) (es : list Event) :
  Forall note_wf (notes (app w)) -> Forall note_wf (notes (app (run' w es))).
Proof.
  revert w. apply (run_invariant (fun w => Forall note_wf (notes (app w)))).
  intros w e H.
  destruct (step_effect w e)
    as [(_ & En & _) | [(now & _ & _ & _ & _ & En & _) | (d & now & _ & Hne & _ & En & _)]];
    rewrite En; try exact H.
  apply Forall_app. split; [exact H|]. constructor; [|constructor].
  split; [exact Hne | apply newId_digits].
Qed.

(** X10.  The component writes no key of the storage but its two slots. *)
Theorem storage_other_keys (w : World) (es : list Event) (key : jsstring) :
  key <> pocketGroups -> key <> pocketNotes ->
  localStorage (run' w es) !! key = localStorage w !! key.
Proof.
  intros Hg Hn. revert w. induction es as [|e es IH]; intros w; [reflexivity|].
  rewrite run_cons, IH.
  destruct (step_effect w e)
    as [(_ & _ & El) | [(now & _ & _ & _ & _ & _ & El) | (d & now & _ & _ & _ & _ & El)]];
    rewrite El; [reflexivity | |]; now apply lookup_insert_ne.
Qed.

(** What one event does to the colour of the form. *)
Lemma step_color (w : World) (e : Event) :
  selectedColor (app (step' w e)) = selectedColor (app w)
  \/ selectedColor (app (step' w e)) = GROUP_COLORS_0
  \/ e = PickColor (selectedColor (app (step' w e))).
Proof.
  unfold step. rewrite app_commit.
  destruct e; cbn [handler]; try (left; reflexivity).
  - right; right. reflexivity.
  - unfold handleCreateGroup.
    destruct (falsy (trim (groupName (app w)))); [now left|].
    destruct (nameTaken (groups (app w)) (groupName (app w))); [now left|].
    right; left. reflexivity.
  - unfold handleAddNote.
    destruct (falsy (trim (noteText (app w)))); now left.
  - destruct (isModalOpen (app w)); now left.
Qed.

(** X8.  As long as colours are picked from the palette, every group has a
    colour of the palette. *)
Theorem colors_stay_in_palette (es : list Event) :
  forall w,
    palette_only es ->
    selectedColor (app w) ∈ GROUP_COLORS ->
    Forall (fun g => Group.color g ∈ GROUP_COLORS) (groups (app w)) ->
    Forall (fun g => Group.color g ∈ GROUP_COLORS) (groups (app (run' w es))).
Proof.
  induction es as [|e es IH]; intros w Hp Hc Hg; [exact Hg|].
  apply Forall_cons in Hp as [He Hp]. rewrite run_cons. apply IH; [exact Hp | |].
  - destruct (step_color w e) as [-> | [-> | Hpick]]; [exact Hc | |].
    + unfold GROUP_COLORS_0, GROUP_COLORS. cbn. apply elem_of_cons; now left.
    + now apply He.
  - destruct (step_effect w e)
      as [(Eg & _) | [(now & _ & _ & _ & Eg & _) | (d & now & _ & _ & Eg & _)]];
      rewrite Eg; try exact Hg.
    apply Forall_app. split; [exact Hg|]. constructor; [exact Hc | constructor].
Qed.

(** X11.  Only the Create button and sending reach the collections, the
    storage or the environment; every other event stays in the form. *)
Theorem other_events_keep_store (w : World) (e : Event) :
  (forall now, e <> ClickCreate now) -> (forall dateObj now, e <> Send dateObj now) ->
  groups (app (step' w e)) = groups (app w)
  /\ notes (app (step' w e)) = notes (app w)
  /\ localStorage (step' w e) = localStorage w
  /\ trace (step' w e) = trace w.
Proof.
  intros Hc Hs. destruct e; try (now contradiction (Hc now));
    try (now contradiction (Hs dateObj now));
    unfold step; cbn [handler]; try destruct (isModalOpen (app w));
    cbn; rewrite ?app_nil_r; auto.
Qed.

(** X13.  Sending clears the text area, so a second send right after adds
    nothing: the note is there once. *)
Theorem send_twice (w : World) (d1 n1 d2 n2 : N) :
  trim (noteText (app w)) <> [] ->
  notes (app (run' w [Send d1 n1; Send d2 n2]))
  = notes (app w) ++ [newNote' (selectedGroupId (app w)) (noteText (app w)) d1 n1]
  /\ run' w [Send d1 n1; Send d2 n2] = step' w (Send d1 n1).
Proof.
  intros H.
  assert (Hr : run' w [Send d1 n1; Send d2 n2] = step' w (Send d1 n1)).
  { change (run' w [Send d1 n1; Send d2 n2])
      with (step' (step' w (Send d1 n1)) (Send d2 n2)).
    unfold step at 1. cbn [handler].
    assert (Ht : noteText (app (step' w (Send d1 n1))) = []).
    { unfold step. cbn [handler]. rewrite handleAddNote_text by exact H.
      rewrite commit_setNotes. reflexivity. }
    rewrite handleAddNote_blank by (rewrite Ht; constructor).
    apply commit_nil. }
  split; [|exact Hr]. rewrite Hr. unfold step. cbn [handler].
  rewrite handleAddNote_text by exact H. rewrite commit_setNotes. reflexivity.
Qed.

(** X12.  Create on a blank name does nothing at all; on a name that is taken
    it raises the notification and keeps the component state, the typed name
    and the open modal included; on a new name it closes the modal and
    resets name and colour of the form, and keeps selection and text area. *)
Theorem create_form (w : World) (now : N) :
  (trim (groupName (app w)) = [] ->
   step' w (ClickCreate now) = w)
  /\ (trim (groupName (app w)) <> [] ->
      nameTaken (groups (app w)) (groupName (app w)) = true ->
      app (step' w (ClickCreate now)) = app w
      /\ localStorage (step' w (ClickCreate now)) = localStorage w
      /\ trace (step' w (ClickCreate now))
         = trace w ++ [alerted (str "Group name already exists!")])
  /\ (trim (groupName (app w)) <> [] ->
      nameTaken (groups (app w)) (groupName (app w)) = false ->
      isModalOpen (app (step' w (ClickCreate now))) = false
      /\ groupName (app (step' w (ClickCreate now))) = []
      /\ selectedColor (app (step' w (ClickCreate now))) = GROUP_COLORS_0
      /\ selectedGroupId (app (step' w (ClickCreate now))) = selectedGroupId (app w)
      /\ noteText (app (step' w (ClickCreate now))) = noteText (app w)).
Proof.
  unfold step. cbn [handler]. split; [|split].
  - intros H. rewrite handleCreateGroup_blank by exact H. apply commit_nil.
  - intros H Ht. rewrite handleCreateGroup_taken by assumption.
    cbn. destruct (app w). auto.
  - intros H Ht. rewrite handleCreateGroup_fresh by assumption. cbn. auto.
Qed.

(** X14.  The send button is disabled exactly when [handleAddNote] would do
    nothing, and so is Enter; Shift+Enter and every other key make no call. *)
Theorem sendDisabled_iff (s : AppState) (dateObj now : N) :
  (sendDisabled s = true <-> handleAddNote' dateObj now s = [])
  /\ (sendDisabled s = true <->
      snd (handleKeyDown toLocaleDateString_en_GB toLocaleTimeString_en_US
             (str "Enter") false dateObj now s) = [])
  /\ (forall key shiftKey,
        key <> str "Enter" \/ shiftKey = true ->
        handleKeyDown toLocaleDateString_en_GB toLocaleTimeString_en_US
          key shiftKey dateObj now s = (false, [])).
Proof.
  assert (H : sendDisabled s = true <-> handleAddNote' dateObj now s = []).
  { unfold sendDisabled, handleAddNote.
    destruct (falsy (trim (noteText s))); split; (reflexivity || discriminate). }
  split; [exact H|]. split; [exact H|].
  intros key shiftKey [Hk | ->]; unfold handleKeyDown.
  - rewrite bool_decide_eq_false_2 by exact Hk. reflexivity.
  - now rewrite andb_false_r.
Qed.

(** X16.  Clicking a group of the list makes a group with its identifier the
    current one (the group itself when identifiers are distinct) and its
    notes the current notes, and changes neither collection nor storage; the
    back button leaves no current group. *)
Theorem select_group (w : World) (g : Group.t) :
  g ∈ groups (app w) ->
  let w' := step' w (ClickGroup (Group.id g)) in
  (exists g', currentGroup (app w') = Some g' /\ Group.id g' = Group.id g)
  /\ (NoDup (map Group.id (groups (app w))) -> currentGroup (app w') = Some g)
  /\ currentNotes (app w') = listNotesFor (Some (Group.id g)) w
  /\ groups (app w') = groups (app w) /\ notes (app w') = notes (app w)
  /\ localStorage w' = localStorage w
  /\ currentGroup (app (step' w ClickBack)) = None
  /\ currentNotes (app (step' w ClickBack)) = listNotesFor None w.
Proof.
  intros Hg w'.
  assert (Hsel : selectedGroupId (app w') = Some (Group.id g)) by reflexivity.
  assert (Hgs : groups (app w') = groups (app w)) by reflexivity.
  destruct (currentGroup_find (app w')) as (Hn & Hs & Hd).
  split; [|split; [|split; [|split; [|split; [|split; [|split]]]]]]; try reflexivity.
  - destruct (currentGroup (app w')) as [g'|] eqn:Hc.
    + exists g'. split; [reflexivity|]. destruct (Hs g' eq_refl) as [_ Hid].
      rewrite Hsel in Hid. congruence.
    + exfalso. apply (proj1 Hn eq_refl g); [now rewrite Hgs | now rewrite Hsel].
  - intros Hnd. apply Hd; [now rewrite Hgs | now rewrite Hsel | now rewrite Hgs].
  - apply (currentGroup_find (app (step' w ClickBack))). intros g0 _. discriminate.
Qed.

(** X17.  At widths from 768 both panes are displayed; below, exactly one:
    the main pane when a group with a non-empty identifier is selected, the
    side bar otherwise (after the back button, or for a group whose
    identifier is the empty string). *)
Theorem mobile_navigation (w : World) (g : Group.t) (innerWidth : N) :
  let isMobile := handleResize innerWidth in
  (768 <= innerWidth ->
   forall s, sidebarShown isMobile s = true /\ mainShown isMobile s = true)
  /\ (innerWidth < 768 ->
      (forall s, sidebarShown isMobile s = negb (mainShown isMobile s)
                 /\ mainShown isMobile s = notesViewShown s)
      /\ mainShown isMobile (app (step' w ClickBack)) = false
      /\ (Group.id g <> [] ->
          mainShown isMobile (app (step' w (ClickGroup (Group.id g)))) = true)
      /\ (Group.id g = [] ->
          mainShown isMobile (app (step' w (ClickGroup (Group.id g)))) = false)).
Proof.
  intros isMobile. subst isMobile. unfold handleResize. split.
  - intros H. destruct (N.ltb_spec innerWidth 768); [lia|]. now split.
  - intros H. destruct (N.ltb_spec innerWidth 768); [|lia].
    unfold sidebarShown, mainShown, notesViewShown. cbn [andb].
    split; [|split; [|split]].
    + intros s. rewrite !negb_involutive. now split.
    + reflexivity.
    + intros Hid. cbn. destruct (Group.id g); [congruence | reflexivity].
    + intros ->. reflexivity.
Qed.

Lemma mount_synced (w : World) :
  in_sync w ->
  mount (localStorage w)
  = Booted
      {| app := mkApp (groups (app w)) (notes (app w)) None false []
                  GROUP_COLORS_0 [];
         localStorage := localStorage w;
         trace := [getItem pocketGroups; getItem pocketNotes;
                   setItem pocketGroups
                     (JSON_stringify (json_of_groups (groups (app w))));
                   setItem pocketNotes
                     (JSON_stringify (json_of_notes (notes (app w))))] |}.
Proof.
  intros [Hg Hn]. rewrite mount_unfold.
  rewrite Hg, Hn.
  rewrite (loadSlot_groups toLocaleDateString_en_GB toLocaleTimeString_en_US),
    (loadSlot_notes toLocaleDateString_en_GB toLocaleTimeString_en_US).
  rewrite (proj2 (groups_roundtrip toLocaleDateString_en_GB
                    toLocaleTimeString_en_US _)),
    (proj2 (notes_roundtrip toLocaleDateString_en_GB toLocaleTimeString_en_US _)).
  unfold write, saveGroups, saveNotes. cbn.
  f_equal. f_equal.
  rewrite (insert_id (localStorage w) pocketGroups _ Hg).
  apply insert_id. exact Hn.
Qed.

(** X19.  After any session, a restart on the storage finds both
    collections as they were, writes back what it read, and starts with no
    selection and an empty form. *)
Theorem restart_stable (ls : gmap jsstring jsstring) (w : World) (es : list Event) :
  mount ls = Booted w ->
  let w1 := run' w es in
  exists w2,
    mount (localStorage w1) = Booted w2
    /\ groups (app w2) = groups (app w1) /\ notes (app w2) = notes (app w1)
    /\ localStorage w2 = localStorage w1
    /\ selectedGroupId (app w2) = None /\ groupName (app w2) = []
    /\ noteText (app w2) = [] /\ isModalOpen (app w2) = false.
Proof.
  intros Hm w1.
  pose proof (run_in_sync toLocaleDateString_en_GB toLocaleTimeString_en_US es w
                (mount_in_sync ls w Hm)) as Hs.
  eexists. split; [apply mount_synced, Hs|]. cbn. repeat split; reflexivity.
Qed.

(** X9.  Identifiers stay pairwise distinct in a session whose clock
    readings give identifiers distinct from each other and from those in
    use. *)
Theorem ids_unique_on_distinct_clock (es : list Event) :
  forall w,
    (NoDup (map Group.id (groups (app w)) ++ map newId (create_times es)) ->
     NoDup (map Group.id (groups (app (run' w es)))))
    /\ (NoDup (map Note.id (notes (app w)) ++ map newId (send_times es)) ->
        NoDup (map Note.id (notes (app (run' w es))))).
Proof.
  induction es as [|e es IH]; intros w.
  { cbn. rewrite !app_nil_r. auto. }
  rewrite run_cons. destruct (IH (step' w e)) as [IHg IHn].
  destruct (step_effect w e)
    as [(Eg & En & _) | [(now & -> & _ & _ & Eg & En & _)
                        | (d & now & -> & _ & Eg & En & _)]].
  - split; intros H; [apply IHg | apply IHn]; rewrite ?Eg, ?En.
    + destruct e; cbn in H; try exact H. now apply NoDup_app_drop in H.
    + destruct e; cbn in H; try exact H. now apply NoDup_app_drop in H.
  - split; intros H; [apply IHg | apply IHn]; rewrite ?Eg, ?En.
    + rewrite map_app. cbn in *. now apply NoDup_app_snoc.
    + exact H.
  - split; intros H; [apply IHg | apply IHn]; rewrite ?Eg, ?En.
    + exact H.
    + rewrite map_app. cbn in *. now apply NoDup_app_snoc.
Qed.

End Sessions.

(** X18.  The start stops with a [SyntaxError] exactly when one of the two
    slots holds a non-empty text that [JSON.parse] rejects. *)
Theorem mount_SyntaxError_iff (ls : gmap jsstring jsstring) :
  mount ls = BootSyntaxError
  <-> exists key text,
        (key = pocketGroups \/ key = pocketNotes)
        /\ ls !! key = Some text /\ text <> [] /\ JSON_parse text = None.
Proof.
  split.
  - rewrite mount_unfold. intros H.
    destruct (loadSlot (ls !! pocketGroups)) as [vg|] eqn:Eg.
    + destruct (loadSlot (ls !! pocketNotes)) as [vn|] eqn:En.
      * destruct (groups_of_json vg), (notes_of_json vn); discriminate.
      * apply loadSlot_None in En as (text & Ht & Hne & Hp).
        exists pocketNotes, text. auto.
    + apply loadSlot_None in Eg as (text & Ht & Hne & Hp).
      exists pocketGroups, text. auto.
  - intros (key & text & Hk & Ht & Hne & Hp).
    assert (Hl : loadSlot (ls !! key) = None).
    { apply loadSlot_None. now exists text. }
    rewrite mount_unfold. destruct Hk as [-> | ->].
    + now rewrite Hl.
    + rewrite Hl. now destruct (loadSlot (ls !! pocketGroups)).
Qed.

(** ** Closed instances of the further properties *)

Section FurtherExamples.

#[local] Existing Instance Latin1.

Example sample_run :
  map Group.name (groups (app (run fixed_date fixed_time first_run sample_events)))
  = [str "Mom Dad"]
  /\ map Note.content (notes (app (run fixed_date fixed_time first_run sample_events)))
     = [str " Dinner at 7 "].
Proof. vm_compute. split; reflexivity. Qed.

Lemma getInitials_blank_witness :
  whitespace_only [32; 9] /\ getInitials [32; 9] = [].
Proof.
  assert (H : whitespace_only [32; 9]) by (repeat constructor).
  split; [exact H | exact (getInitials_blank [32; 9] H)].
Defined.

Lemma getInitials_ascii_witness :
  ascii_only (str " mom dad ") /\ trim (str " mom dad ") <> []
  /\ Forall (fun c => c < 128 /\ (c < 97 \/ 122 < c)) (getInitials (str " mom dad ")).
Proof.
  assert (H1 : ascii_only (str " mom dad ")) by (repeat constructor).
  assert (H2 : trim (str " mom dad ") <> []) by discriminate.
  split; [exact H1|]. split; [exact H2|].
  exact (proj2 (getInitials_ascii (str " mom dad ") H1 H2)).
Defined.

Lemma names_stay_distinct_witness :
  names_distinct (groups (app first_run))
  /\ names_distinct
       (groups (app (run fixed_date fixed_time first_run sample_events))).
Proof.
  assert (H : names_distinct (groups (app first_run))) by constructor.
  split; [exact H|].
  exact (names_stay_distinct fixed_date fixed_time first_run sample_events H).
Defined.

Lemma groups_stay_wellformed_witness :
  Forall group_wf (groups (app first_run))
  /\ Forall group_wf
       (groups (app (run fixed_date fixed_time first_run sample_events))).
Proof.
  assert (H : Forall group_wf (groups (app first_run))) by constructor.
  split; [exact H|].
  exact (groups_stay_wellformed fixed_date fixed_time first_run sample_events H).
Defined.

Lemma notes_stay_wellformed_witness :
  Forall note_wf (notes (app first_run))
  /\ Forall note_wf
       (notes (app (run fixed_date fixed_time first_run sample_events))).
Proof.
  assert (H : Forall note_wf (notes (app first_run))) by constructor.
  split; [exact H|].
  exact (notes_stay_wellformed fixed_date fixed_time first_run sample_events H).
Defined.

Lemma colors_stay_in_palette_witness :
  palette_only sample_events
  /\ selectedColor (app first_run) ∈ GROUP_COLORS
  /\ Forall (fun g => Group.color g ∈ GROUP_COLORS) (groups (app first_run))
  /\ Forall (fun g => Group.color g ∈ GROUP_COLORS)
       (groups (app (run fixed_date fixed_time first_run sample_events))).
Proof.
  assert (H1 : palette_only sample_events).
  { unfold palette_only, sample_events.
    repeat (apply Forall_cons; split; [intros c Hc; try discriminate Hc|]);
      [|constructor].
    injection Hc as <-. do 2 right. left. }
  assert (H2 : selectedColor (app first_run) ∈ GROUP_COLORS) by left.
  assert (H3 : Forall (fun g => Group.color g ∈ GROUP_COLORS) (groups (app first_run)))
    by constructor.
  split; [exact H1|]. split; [exact H2|]. split; [exact H3|].
  exact (colors_stay_in_palette fixed_date fixed_time sample_events first_run H1 H2 H3).
Defined.

Lemma storage_other_keys_witness :
  str "theme" <> pocketGroups /\ str "theme" <> pocketNotes
  /\ localStorage (run fixed_date fixed_time first_run sample_events) !! str "theme"
     = localStorage first_run !! str "theme".
Proof.
  assert (H1 : str "theme" <> pocketGroups) by discriminate.
  assert (H2 : str "theme" <> pocketNotes) by discriminate.
  split; [exact H1|]. split; [exact H2|].
  exact (storage_other_keys fixed_date fixed_time first_run sample_events
           (str "theme") H1 H2).
Defined.

Lemma other_events_keep_store_witness :
  (forall now, TypeNote (str "x") <> ClickCreate now)
  /\ (forall dateObj now, TypeNote (str "x") <> Send dateObj now)
  /\ localStorage (step fixed_date fixed_time first_run (TypeNote (str "x")))
     = localStorage first_run.
Proof.
  assert (H1 : forall now, TypeNote (str "x") <> ClickCreate now) by discriminate.
  assert (H2 : forall dateObj now, TypeNote (str "x") <> Send dateObj now)
    by discriminate.
  split; [exact H1|]. split; [exact H2|].
  exact (proj1 (proj2 (proj2 (other_events_keep_store fixed_date fixed_time first_run
                                (TypeNote (str "x")) H1 H2)))).
Defined.

Lemma send_twice_witness :
  trim (noteText (app (step fixed_date fixed_time first_run (TypeNote (str "hi"))))) <> []
  /\ run fixed_date fixed_time
       (step fixed_date fixed_time first_run (TypeNote (str "hi")))
       [Send 1700000000000 1700000000000; Send 1700000000001 1700000000001]
     = step fixed_date fixed_time
         (step fixed_date fixed_time first_run (TypeNote (str "hi")))
         (Send 1700000000000 1700000000000).
Proof.
  assert (H : trim (noteText (app (step fixed_date fixed_time first_run
                                     (TypeNote (str "hi"))))) <> []) by discriminate.
  split; [exact H|].
  exact (proj2 (send_twice fixed_date fixed_time _ 1700000000000 1700000000000
                  1700000000001 1700000000001 H)).
Defined.

Lemma create_form_witness :
  (trim (groupName (app first_run)) = []
   /\ step fixed_date fixed_time first_run (ClickCreate 1700000000000) = first_run)
  /\ (trim (groupName (app (step fixed_date fixed_time first_run
                              (TypeGroupName (str "Work"))))) <> []
      /\ nameTaken
           (groups (app (step fixed_date fixed_time first_run
                           (TypeGroupName (str "Work")))))
           (groupName (app (step fixed_date fixed_time first_run
                              (TypeGroupName (str "Work"))))) = false
      /\ groupName
           (app (step fixed_date fixed_time
                   (step fixed_date fixed_time first_run (TypeGroupName (str "Work")))
                   (ClickCreate 1700000000000))) = []).
Proof.
  assert (H1 : trim (groupName (app first_run)) = []) by reflexivity.
  assert (H2 : trim (groupName (app (step fixed_date fixed_time first_run
                                       (TypeGroupName (str "Work"))))) <> [])
    by discriminate.
  assert (H3 : nameTaken
           (groups (app (step fixed_date fixed_time first_run
                           (TypeGroupName (str "Work")))))
           (groupName (app (step fixed_date fixed_time first_run
                              (TypeGroupName (str "Work"))))) = false) by reflexivity.
  split.
  - split; [exact H1|].
    exact (proj1 (create_form fixed_date fixed_time first_run 1700000000000) H1).
  - split; [exact H2|]. split; [exact H3|].
    exact (proj1 (proj2 (proj2 (proj2 (create_form fixed_date fixed_time _
                                         1700000000000)) H2 H3))).
Defined.

Lemma sendDisabled_iff_witness :
  (str "Enter" <> str "Enter" \/ true = true)
  /\ handleKeyDown fixed_date fixed_time (str "Enter") true 1700000000000
       1700000000000 (mkApp [] [] (Some (str "1")) false [] GROUP_COLORS_0 (str "hi"))
     = (false, []).
Proof.
  assert (H : str "Enter" <> str "Enter" \/ true = true) by (right; reflexivity).
  split; [exact H|].
  exact (proj2 (proj2 (sendDisabled_iff fixed_date fixed_time
                         (mkApp [] [] (Some (str "1")) false [] GROUP_COLORS_0 (str "hi"))
                         1700000000000 1700000000000))
           (str "Enter") true H).
Defined.

Lemma currentGroup_spec_witness :
  Group.mk (str "2") (str "b") GROUP_COLORS_0 (str "B")
    ∈ [Group.mk (str "1") (str "a") GROUP_COLORS_0 (str "A");
        Group.mk (str "2") (str "b") GROUP_COLORS_0 (str "B")]
  /\ NoDup [str "1"; str "2"]
  /\ currentGroup
       (mkApp [Group.mk (str "1") (str "a") GROUP_COLORS_0 (str "A");
               Group.mk (str "2") (str "b") GROUP_COLORS_0 (str "B")]
          [] (Some (str "2")) false [] GROUP_COLORS_0 [])
     = Some (Group.mk (str "2") (str "b") GROUP_COLORS_0 (str "B")).
Proof.
  assert (H1 : Group.mk (str "2") (str "b") GROUP_COLORS_0 (str "B")
    ∈ [Group.mk (str "1") (str "a") GROUP_COLORS_0 (str "A");
        Group.mk (str "2") (str "b") GROUP_COLORS_0 (str "B")]) by (right; left).
  assert (H2 : NoDup [str "1"; str "2"]).
  { constructor; [|constructor; [|constructor]]; intros H; inversion H; subst.
    inversion H3. }
  split; [exact H1|]. split; [exact H2|].
  exact (proj2 (proj2 (currentGroup_spec
           (mkApp [Group.mk (str "1") (str "a") GROUP_COLORS_0 (str "A");
                   Group.mk (str "2") (str "b") GROUP_COLORS_0 (str "B")]
              [] (Some (str "2")) false [] GROUP_COLORS_0 [])))
           _ H1 eq_refl H2).
Defined.

Lemma select_group_witness :
  newGroup (str "Work") (str "#B38BFA") 1700000000000
    ∈ groups (app (createGroup fixed_date fixed_time (str "Work") (str "#B38BFA")
                     1700000000000 first_run))
  /\ exists g',
      currentGroup
        (app (step fixed_date fixed_time
                (createGroup fixed_date fixed_time (str "Work") (str "#B38BFA")
                   1700000000000 first_run)
                (ClickGroup (Group.id (newGroup (str "Work") (str "#B38BFA")
                                         1700000000000)))))
      = Some g'
      /\ Group.id g' = Group.id (newGroup (str "Work") (str "#B38BFA") 1700000000000).
Proof.
  assert (H : newGroup (str "Work") (str "#B38BFA") 1700000000000
    ∈ groups (app (createGroup fixed_date fixed_time (str "Work") (str "#B38BFA")
                     1700000000000 first_run))) by left.
  split; [exact H|].
  exact (proj1 (select_group fixed_date fixed_time _ _ H)).
Defined.

Lemma mobile_navigation_witness :
  375 < 768
  /\ Group.id (newGroup (str "Work") (str "#B38BFA") 1700000000000) <> []
  /\ mainShown (handleResize 375)
       (app (step fixed_date fixed_time first_run
               (ClickGroup (Group.id (newGroup (str "Work") (str "#B38BFA")
                                        1700000000000))))) = true
  /\ (768 <= 1024
      /\ sidebarShown (handleResize 1024) (app first_run) = true).
Proof.
  assert (H1 : 375 < 768) by lia.
  assert (H2 : Group.id (newGroup (str "Work") (str "#B38BFA") 1700000000000) <> [])
    by discriminate.
  assert (H3 : 768 <= 1024) by lia.
  split; [exact H1|]. split; [exact H2|]. split.
  - exact (proj1 (proj2 (proj2 (proj2 (mobile_navigation fixed_date fixed_time first_run
             (newGroup (str "Work") (str "#B38BFA") 1700000000000) 375) H1))) H2).
  - split; [exact H3|].
    exact (proj1 (proj1 (mobile_navigation fixed_date fixed_time first_run
             (newGroup (str "Work") (str "#B38BFA") 1700000000000) 1024) H3
             (app first_run))).
Defined.

Lemma restart_stable_witness :
  mount ∅ = Booted first_run
  /\ exists w2,
      mount (localStorage (run fixed_date fixed_time first_run sample_events))
      = Booted w2
      /\ groups (app w2)
         = groups (app (run fixed_date fixed_time first_run sample_events))
      /\ notes (app w2)
         = notes (app (run fixed_date fixed_time first_run sample_events))
      /\ localStorage w2
         = localStorage (run fixed_date fixed_time first_run sample_events).
Proof.
  assert (H : mount ∅ = Booted first_run) by reflexivity.
  split; [exact H|].
  destruct (restart_stable fixed_date fixed_time ∅ first_run sample_events H)
    as (w2 & Hm & Hg & Hn & Hl & _).
  exists w2. auto.
Defined.

Lemma ids_unique_on_distinct_clock_witness :
  NoDup (map Group.id (groups (app first_run)) ++ map newId (create_times sample_events))
  /\ NoDup (map Group.id
              (groups (app (run fixed_date fixed_time first_run sample_events)))).
Proof.
  assert (H : NoDup (map Group.id (groups (app first_run))
                     ++ map newId (create_times sample_events))).
  { cbn. constructor; [|constructor; [|constructor]].
    - intros Hin. apply list_elem_of_singleton in Hin. discriminate Hin.
    - intros Hin. inversion Hin. }
  split; [exact H|].
  exact (proj1 (ids_unique_on_distinct_clock fixed_date fixed_time sample_events
                  first_run) H).
Defined.

End FurtherExamples.
